(** * Repetition_Code.ipynb: the decoding and statistics core

    A shallow embedding of the functions of the notebook
    [tutorial/sections/repetitioncode/Repetition_Code.ipynb]
    ([GetAddress], [AddError], [AddCnot], [RunRepetition],
    [AddProbToResults], [CalculateError], [GetData] and the aggregation
    loop of section 4) together with the properties of the lookup-table
    decoder that the specification states.

    Conventions.
    - Python numbers are exact rationals ([Qc], canonical fractions, so
      that numeric equality is Leibniz equality).  Floating-point rounding
      is not modelled.
    - A Python [dict] with string keys is a [gmap string _].  Iteration
      over [d.keys()] is iteration over [map_to_list d]; the loops of the
      notebook add up probabilities or update one key at a time, so what
      they compute does not depend on the iteration order in exact
      arithmetic.
    - What the notebook prints is not modelled.
    - Python exceptions are the [Raise] outcome of the [res] type. *)

From Stdlib Require Import QArith Qcanon ZArith Ascii String List Permutation Lqa.
From stdpp Require Import gmap strings list fin_maps numbers.

Local Open Scope Z_scope.
Local Open Scope Qc_scope.

(** ** A fragment of the Python runtime *)

Module Py.

Inductive exn : Type := IndexError | KeyError | TypeError.

(** Outcome of running a piece of code: a value, an exception, or (for
    the polling loop of [RunRepetition] only) no outcome at all within
    the responses the backend is known to give. *)
Inductive res (A : Type) : Type :=
| Ok (a : A)
| Raise (e : exn)
| Hang.
Arguments Ok {A} a.
Arguments Raise {A} e.
Arguments Hang {A}.

Definition bind {A B} (m : res A) (k : A → res B) : res B :=
  match m with
  | Ok a => k a
  | Raise e => Raise e
  | Hang => Hang
  end.

(** [for x in xs: s = body(s, x)] with exceptions. *)
Fixpoint for_each {A S} (body : S → A → res S) (xs : list A) (s : S) : res S :=
  match xs with
  | [] => Ok s
  | x :: xs' => bind (body s x) (for_each body xs')
  end.

(** The values a dictionary returned by the backend can hold: numbers,
    strings (the error reports of an incomplete job) and, for the sake
    of the test [v is not str], the type object [str] itself. *)
Inductive value : Type :=
| Num (q : Qc)
| Str (s : string)
| StrType.

Global Instance value_eq_dec : EqDecision value.
Proof. solve_decision. Defined.

(** [v is not str]: identity comparison with the type object. *)
Definition is_not_str (v : value) : bool :=
  match v with
  | StrType => false
  | _ => true
  end.

(** [v / n] for an integer [n]: defined on numbers only. *)
Definition div (v : value) (n : Z) : res value :=
  match v with
  | Num q => Ok (Num (q / Qc_of_Z n))
  | _ => Raise TypeError
  end.

(** The numeric operand of [0 + v]; a [TypeError] otherwise. *)
Definition as_number (v : value) : res Qc :=
  match v with
  | Num q => Ok q
  | _ => Raise TypeError
  end.

(** [s[i]] on a string: negative indices count from the end, anything
    outside [-len(s) .. len(s)-1] raises [IndexError]. *)
Definition str_index (s : string) (i : Z) : res ascii :=
  let n := Z.of_nat (String.length s) in
  let j := if (i <? 0)%Z then (n + i)%Z else i in
  if ((0 <=? j)%Z && (j <? n)%Z)%bool then
    match String.get (Z.to_nat j) s with
    | Some c => Ok c
    | None => Raise IndexError
    end
  else Raise IndexError.

(** [s += c] for a one-character string [c]. *)
Definition str_push (s : string) (c : ascii) : string :=
  (s ++ String c EmptyString)%string.

(** [range(n)] and [range(start, stop, step)] for a positive [step]. *)
Definition range (n : Z) : list Z := seqZ 0 n.

Definition range3 (start stop step : Z) : list Z :=
  (λ i, start + step * i)%Z <$> seqZ 0 ((stop - start + step - 1) / step).

(** [sum(l)] and [sum(d.values())]. *)
Definition Qc_sum (l : list Qc) : Qc := foldr Qcplus 0 l.
Global Arguments Qc_sum : simpl never.

Definition total (d : gmap string Qc) : Qc :=
  Qc_sum (snd <$> map_to_list d).

End Py.

Import Py.

Notation "x <- e ;; k" := (Py.bind e (λ x, k))
  (at level 100, e at next level, k at level 200, right associativity,
   format "'[v' x  <-  e  ;;  '/' k ']'").

(** ** [AddProbToResults] *)

(** [if string not in results.keys(): results[string] = 0] followed by
    [results[string] += prob].  The dictionary is updated in place in the
    notebook; here the updated dictionary is returned. *)
Definition AddProbToResults (prob : Qc) (key : string)
    (results : gmap string Qc) : gmap string Qc :=
  let results :=
    if bool_decide (key ∉ dom results) then <[key := 0]> results else results in
  alter (λ old, old + prob) key results.

(** ** [CalculateError] *)

(** One iteration of the loop over [results[bit].keys()]; [entry] is the
    key together with [results[bit][string]]. *)
Definition CalculateError_body (bit : nat) (results : list (gmap string Qc))
    (error : Qc) (entry : string * Qc) : res Qc :=
  let right := entry.2 in
  other <- match results !! ((bit + 1) mod 2)%nat with
           | Some o => Ok o
           | None => Raise IndexError
           end ;;
  let wrong := match other !! entry.1 with
               | Some w => w
               | None => 0
               end in
  if bool_decide (right < wrong) then Ok (error + right)
  else if bool_decide (wrong = right) then Ok (error + Q2Qc 0.5 * right)
  else Ok error.

Definition CalculateError (bit : nat) (results : list (gmap string Qc)) : res Qc :=
  this_table <- match results !! bit with
                | Some t => Ok t
                | None => Raise IndexError
                end ;;
  for_each (CalculateError_body bit results) (map_to_list this_table) 0.

(** The lookup tables of the worked example in the notebook (d = 3, code
    qubits only). *)
Definition example_table0 : gmap string Qc :=
  list_to_map
    [("000", Q2Qc 0.669); ("001", Q2Qc 0.1); ("010", Q2Qc 0.1);
     ("100", Q2Qc 0.1); ("110", Q2Qc 0.01); ("101", Q2Qc 0.01);
     ("011", Q2Qc 0.01); ("111", Q2Qc 0.001)]%string.

Definition example_table1 : gmap string Qc :=
  list_to_map
    [("000", Q2Qc 0.001); ("001", Q2Qc 0.01); ("010", Q2Qc 0.01);
     ("100", Q2Qc 0.01); ("110", Q2Qc 0.1); ("101", Q2Qc 0.1);
     ("011", Q2Qc 0.1); ("111", Q2Qc 0.669)]%string.

(** ** Circuit construction: [GetAddress], [AddError], [AddCnot] *)

(** The instructions the notebook appends to [repetitionScript].  A qubit
    [q[address]] is represented by its address; a rotation
    [u3(frac * math.pi, 0.0, 0.0, _)] by the fraction [frac] of pi. *)
Inductive gate : Type :=
| gate_x (q : Z)
| gate_h (q : Z)
| gate_cx (control target : Z)
| gate_u3 (frac : Qc) (q : Z)
| gate_barrier
| gate_measure (q c : Z).

Definition GetAddress (codeQubit offset : Z) (simulator : bool) : Z :=
  if simulator then (2 * codeQubit + offset)%Z
  else ((5 - 2 * codeQubit - offset) mod 16)%Z.

Definition AddError (script : list gate) (num : Z) (simulator : bool)
    (bit : nat) : list gate :=
  let fracAncilla := Q2Qc 0.05 in
  let fracCode := fracAncilla in
  let fracCode := if bool_decide (bit = 1%nat) then fracCode * 2 else fracCode in
  if simulator then
    script
      ++ (gate_u3 fracCode <$> range3 0 (num - 1) 2)
      ++ (gate_u3 fracAncilla <$> range3 1 (num - 1) 2)
      ++ [gate_u3 fracCode (num - 1)]
      ++ [gate_barrier]
  else script.

(** [b in coupling_map[a]]: a CNOT with control [a] and target [b] is
    available on the device. *)
Definition coupling_map : gmap Z (list Z) :=
  list_to_map
    [(0, [1]); (1, [2]); (2, [3]); (3, [14]); (4, [3; 5]); (5, []);
     (6, [7; 11]); (7, [10]); (8, [7]); (9, [10; 8]); (10, []); (11, [10]);
     (12, [5; 11; 13]); (13, [4; 14]); (14, []); (15, [0; 14])]%Z.

Definition coupling_map_at (a : Z) : res (list Z) :=
  match coupling_map !! a with
  | Some l => Ok l
  | None => Raise KeyError
  end.

(** The message printed when the two qubits cannot be entangled goes to the
    standard output, which is not part of the model: the script is then
    returned unchanged. *)
Definition AddCnot (repetitionScript : list gate) (control target : Z)
    (simulator : bool) : res (list gate) :=
  direct <- coupling_map_at control ;;
  if (bool_decide (target ∈ direct) || simulator)%bool then
    Ok (repetitionScript ++ [gate_cx control target])
  else
    reversed <- coupling_map_at target ;;
    if bool_decide (control ∈ reversed) then
      Ok (repetitionScript
            ++ [gate_h control; gate_h target; gate_cx target control;
                gate_h control; gate_h target])
    else Ok repetitionScript.

(** ** The execution backend *)

(** What [Q_program.execute] is asked to run. *)
Record job : Type := Job {
  job_circuit : list gate;
  job_qubits : Z;
  job_device : string;
  job_shots : Z
}.

(** Modelled from the spec: the execution backend
    ([QuantumProgram.execute] followed by [get_counts]), which is not part
    of the notebook.  It is a sequence of responses, one per executed job,
    each a mapping from keys to values: counts for a completed job, and a
    mapping holding the key ["status"] otherwise.  The world also records
    the jobs submitted so far. *)
Record world : Type := World {
  responses : list (gmap string value);
  submitted : list job
}.

Definition M (A : Type) : Type := world → res A * world.

Definition lift {A} (r : res A) : M A := λ w, (r, w).

Definition bindM {A B} (m : M A) (k : A → M B) : M B :=
  λ w, match m w with
       | (Ok a, w') => k a w'
       | (Raise e, w') => (Raise e, w')
       | (Hang, w') => (Hang, w')
       end.

Notation "x <~ e ;; k" := (bindM e (λ x, k))
  (at level 100, e at next level, k at level 200, right associativity,
   format "'[v' x  <~  e  ;;  '/' k ']'").

(** ** [RunRepetition] *)

(** The gates inserted by [RunRepetition], up to and including the final
    measurements. *)
Definition RunRepetition_script (bit : nat) (d : Z) (simulator : bool)
    (num : Z) : res (list gate) :=
  let repetitionScript : list gate := [] in
  let repetitionScript :=
    if bool_decide (bit = 1%nat) then
      repetitionScript
        ++ ((λ codeQubit, gate_x (GetAddress codeQubit 0 simulator)) <$> range d)
        ++ [gate_x (GetAddress (d - 1) 1 simulator)]
    else repetitionScript in
  let repetitionScript := repetitionScript ++ [gate_barrier] in
  let repetitionScript := AddError repetitionScript num simulator bit in
  repetitionScript <-
    for_each (λ script codeQubit,
                AddCnot script (GetAddress codeQubit 0 simulator)
                  (GetAddress codeQubit 1 simulator) simulator)
      (range (d - 1)) repetitionScript ;;
  let repetitionScript := repetitionScript ++ [gate_barrier] in
  let repetitionScript := AddError repetitionScript num simulator bit in
  repetitionScript <-
    for_each (λ script codeQubit,
                AddCnot script (GetAddress codeQubit 0 simulator)
                  (GetAddress codeQubit (-1) simulator) simulator)
      (range3 1 d 1) repetitionScript ;;
  let repetitionScript := repetitionScript ++ [gate_barrier] in
  let repetitionScript := AddError repetitionScript num simulator bit in
  Ok (repetitionScript ++ ((λ address, gate_measure address address) <$> range num)).

(** [while dataNeeded]: run the job, extract the counts, and stop as soon
    as the counts do not hold the key ["status"].  Every iteration submits
    the job and consumes one response of the backend; when the known
    responses are used up the outcome is [Hang]. *)
Fixpoint run_until_data (j : job) (rs : list (gmap string value))
    (jobs : list job) : res (gmap string value) * world :=
  match rs with
  | [] => (Hang, World [] (jobs ++ [j]))
  | results :: rest =>
      if bool_decide ("status"%string ∉ dom results)
      then (Ok results, World rest (jobs ++ [j]))
      else run_until_data j rest (jobs ++ [j])
  end.

(** [for key in results.keys(): results[key] = results[key]/shots]. *)
Definition to_fractions_body (shots : Z) (results : gmap string value)
    (key : string) : res (gmap string value) :=
  old <- match results !! key with
         | Some v => Ok v
         | None => Raise KeyError
         end ;;
  new <- Py.div old shots ;;
  Ok (<[key := new]> results).

Definition to_fractions (shots : Z) (results : gmap string value)
    : res (gmap string value) :=
  for_each (to_fractions_body shots) (map_to_list results).*1 results.

Definition shots : Z := 8192.

(** The first part of [RunRepetition]: the register size, the circuit and
    the arguments of [Q_program.execute]. *)
Definition RunRepetition_job (bit : nat) (d : Z) (device : string) : res job :=
  let simulator := bool_decide (device ≠ "ibmqx3"%string) in
  let num := if simulator then (2 * d)%Z else 16%Z in
  repetitionScript <- RunRepetition_script bit d simulator num ;;
  Ok (Job repetitionScript num device shots).

Definition RunRepetition (bit : nat) (d : Z) (device : string)
    : M (gmap string value) :=
  j <~ lift (RunRepetition_job bit d device) ;;
  results <~ (λ w, run_until_data j (responses w) (submitted w)) ;;
  lift (to_fractions shots results).

(** ** [GetData] *)

(** The body of the loop [for codeQubit in range(d)] that builds
    [stringFull]: the code qubit, then (except after the last code qubit)
    the ancilla that follows it. *)
Definition stringFull_body (d : Z) (simulator : bool) (stringRaw : string)
    (bitNum : Z) (stringFull : string) (codeQubit : Z) : res string :=
  c <- str_index stringRaw (bitNum - GetAddress codeQubit 0 simulator) ;;
  let stringFull := str_push stringFull c in
  if bool_decide (codeQubit ≠ (d - 1)%Z) then
    a <- str_index stringRaw (bitNum - GetAddress codeQubit 1 simulator) ;;
    Ok (str_push stringFull a)
  else Ok stringFull.

(** The body of the loop [for n in range(d)] that builds [stringCode]. *)
Definition stringCode_body (stringFull : string) (stringCode : string) (n : Z)
    : res string :=
  c <- str_index stringFull (2 * n) ;;
  Ok (str_push stringCode c).

(** The three derived strings of one raw outcome: the full string (code
    and ancilla qubits alternating), the code qubits only, and the single
    qubit. *)
Definition remap (d : Z) (simulator : bool) (stringRaw : string)
    : res (string * string * string) :=
  let bitNum := (Z.of_nat (String.length stringRaw) - 1)%Z in
  stringFull <-
    for_each (stringFull_body d simulator stringRaw bitNum) (range d) ""%string ;;
  stringCode <- for_each (stringCode_body stringFull) (range d) ""%string ;;
  stringSingle <- str_index stringRaw (bitNum - GetAddress (d - 1) 1 simulator) ;;
  Ok (stringFull, stringCode, String stringSingle EmptyString).

(** The dictionaries [resultsFull[bit]], [resultsCode[bit]] and
    [resultsSingle[bit]] for one value of [bit]. *)
Record views : Type := Views {
  viewFull : gmap string Qc;
  viewCode : gmap string Qc;
  viewSingle : gmap string Qc
}.

(** The body of the loop over [resultsRaw[bit].keys()].  [guard] is the
    test applied to [resultsRaw[bit][stringRaw]] before the entry is
    processed.  A value that is not a number makes the first
    [results[string] += prob] raise [TypeError]. *)
Definition GetData_body (guard : value → bool) (d : Z) (simulator : bool)
    (acc : views) (entry : string * value) : res views :=
  let stringRaw := entry.1 in
  if guard entry.2 then
    strings <- remap d simulator stringRaw ;;
    let '(stringFull, stringCode, stringSingle) := strings in
    probToAdd <- as_number entry.2 ;;
    Ok (Views (AddProbToResults probToAdd stringFull (viewFull acc))
              (AddProbToResults probToAdd stringCode (viewCode acc))
              (AddProbToResults probToAdd stringSingle (viewSingle acc)))
  else Ok acc.

Definition accumulate_with (guard : value → bool) (d : Z) (simulator : bool)
    (raw : gmap string value) : res views :=
  for_each (GetData_body guard d simulator) (map_to_list raw) (Views ∅ ∅ ∅).

(** The loop as the notebook has it, guarded by
    [resultsRaw[bit][stringRaw] is not str]. *)
Definition accumulate : Z → bool → gmap string value → res views :=
  accumulate_with is_not_str.

(** The same loop with the guard removed. *)
Definition accumulate_unguarded : Z → bool → gmap string value → res views :=
  accumulate_with (λ _, true).

(** [GetData], parametrised by the accumulation loop.  The lists
    [resultsFull], [resultsCode] and [resultsSingle] start as [[{},{}]] and
    entry [bit] is filled by the iteration for [bit].  The table printed
    when [verbose] is set goes to the standard output and is not
    modelled. *)
Definition GetData_with (acc_loop : Z → bool → gmap string value → res views)
    (d : Z) (device : string) (verbose : bool)
    : M (list Qc * list Qc * list Qc) :=
  let simulator := bool_decide (device ≠ "ibmqx3"%string) in
  raw0 <~ RunRepetition 0 d device ;;
  v0 <~ lift (acc_loop d simulator raw0) ;;
  raw1 <~ RunRepetition 1 d device ;;
  v1 <~ lift (acc_loop d simulator raw1) ;;
  let resultsFull := [viewFull v0; viewFull v1] in
  let resultsCode := [viewCode v0; viewCode v1] in
  let resultsSingle := [viewSingle v0; viewSingle v1] in
  lift (f0 <- CalculateError 0 resultsFull ;;
        c0 <- CalculateError 0 resultsCode ;;
        s0 <- CalculateError 0 resultsSingle ;;
        f1 <- CalculateError 1 resultsFull ;;
        c1 <- CalculateError 1 resultsCode ;;
        s1 <- CalculateError 1 resultsSingle ;;
        Ok ([f0; f1], [c0; c1], [s0; s1])).

Definition GetData : Z → string → bool → M (list Qc * list Qc * list Qc) :=
  GetData_with accumulate.

Definition GetData_unguarded : Z → string → bool → M (list Qc * list Qc * list Qc) :=
  GetData_with accumulate_unguarded.

(** ** The aggregation loop of section 4 *)

(** The accumulators [error*Mean[d-3][bit]] and [error*Var[d-3][bit]] of
    one view, one code distance and one encoded bit. *)
Record cell : Type := Cell { Mean : Qc; Var : Qc }.

(** [Mean += e/totalRuns] and [Var += (e**2)/totalRuns]. *)
Definition add_run (totalRuns : Z) (c : cell) (e : Qc) : cell :=
  Cell (Mean c + e / Qc_of_Z totalRuns) (Var c + (e * e) / Qc_of_Z totalRuns).

(** [Var -= Mean**2]. *)
Definition finish (c : cell) : cell :=
  Cell (Mean c) (Var c - Mean c * Mean c).

(** The loop [for run in range(0,totalRuns)] on one cell, where [es] lists
    the error values that [GetData] returned in the successive runs,
    followed by the finishing step. *)
Definition aggregate (totalRuns : Z) (es : list Qc) : cell :=
  finish (foldl (add_run totalRuns) (Cell 0 0) es).

(** ** Auxiliary notions used in the statements *)

(** What the string of [entry] adds to [error] in [CalculateError], given
    the lookup table [other] of the opposite encoded bit. *)
Definition contribution (other : gmap string Qc) (entry : string * Qc) : Qc :=
  let right := entry.2 in
  let wrong := default 0 (other !! entry.1) in
  if bool_decide (right < wrong) then right
  else if bool_decide (wrong = right) then Q2Qc 0.5 * right
  else 0.

(** All values of a lookup table are non-negative. *)
Definition nonneg (table : gmap string Qc) : Prop :=
  ∀ key v, table !! key = Some v → 0 ≤ v.

(** No string has a nonzero probability in both tables. *)
Definition disjoint_support (r0 r1 : gmap string Qc) : Prop :=
  ∀ key v0 v1, r0 !! key = Some v0 → r1 !! key = Some v1 → v0 = 0 ∨ v1 = 0.

(** The number a raw value stands for in a sum of probabilities. *)
Definition number_of (v : value) : Qc :=
  match v with
  | Num q => q
  | _ => 0
  end.

(** Every qubit and bit address of the instruction lies in a register of
    size [num]. *)
Definition gate_in_register (num : Z) (g : gate) : Prop :=
  match g with
  | gate_x q | gate_h q | gate_u3 _ q => (0 ≤ q < num)%Z
  | gate_cx control target => (0 ≤ control < num)%Z ∧ (0 ≤ target < num)%Z
  | gate_barrier => True
  | gate_measure q c => (0 ≤ q < num)%Z ∧ (0 ≤ c < num)%Z
  end.

(** A raw outcome string has one character per qubit of the register:
    [2*d] on a simulator (where [d] is at least 1), 16 on the device. *)
Definition well_formed_key (d : Z) (simulator : bool) (stringRaw : string)
    : Prop :=
  if simulator
  then (1 ≤ d)%Z ∧ Z.of_nat (String.length stringRaw) = (2 * d)%Z
  else Z.of_nat (String.length stringRaw) = 16%Z.

(** The responses that make the loop of [RunRepetition] run again. *)
Definition incomplete (results : gmap string value) : Prop :=
  "status"%string ∈ dom results.

(** [GetData(d, device, verbose)] fails without having submitted a job. *)
Definition rejected_before_execution (d : Z) (device : string)
    (verbose : bool) (w : world) : Prop :=
  ∃ e, (GetData d device verbose w).1 = Raise e
       ∧ submitted (GetData d device verbose w).2 = submitted w.

(** Counts of a completed job on two qubits, as numbers and as the backend
    reports them. *)
Definition example_counts : gmap string Qc :=
  list_to_map [("00", Qc_of_Z 8000); ("01", Qc_of_Z 100); ("10", Qc_of_Z 92)]%string.

Definition example_counts' : gmap string Qc :=
  list_to_map [("11", Qc_of_Z 8000); ("01", Qc_of_Z 100); ("10", Qc_of_Z 92)]%string.

(** A raw outcome distribution of a simulated d = 3 code (six qubits), and
    the three distributions that the loop of [GetData] derives from it. *)
Definition example_raw : gmap string Qc :=
  list_to_map
    [("000000", Q2Qc 0.5); ("010101", Q2Qc 0.25); ("000010", Q2Qc 0.125);
     ("100010", Q2Qc 0.125)]%string.

Definition example_views : views :=
  match accumulate 3 true (Num <$> example_raw) with
  | Ok v => v
  | _ => Views ∅ ∅ ∅
  end.

(** A backend that answers two jobs on two qubits with complete counts. *)
Definition example_world : world :=
  World [Num <$> example_counts; Num <$> example_counts'] [].

(** The job of [RunRepetition(0, 1, 'local_qasm_simulator')]. *)
Definition example_job : job :=
  match RunRepetition_job 0 1 "local_qasm_simulator" with
  | Ok j => j
  | _ => Job [] 0 "" 0
  end.

(** What [RunRepetition(0, 1, 'local_qasm_simulator')] returns on
    [example_world]. *)
Definition example_fractions : gmap string value :=
  match (RunRepetition 0 1 "local_qasm_simulator" example_world).1 with
  | Ok results => results
  | _ => ∅
  end.

(** A backend whose first answer is an error report. *)
Definition example_retry_world : world :=
  World [{["status"%string := Str "Error"]}; Num <$> example_counts] [].

(** ** Further notions: the circuit *)

(** A CNOT instruction is one the device offers: its target is listed in
    [coupling_map] under its control. *)
Definition cnot_allowed (g : gate) : Prop :=
  match g with
  | gate_cx control target =>
      ∃ direct, coupling_map !! control = Some direct ∧ target ∈ direct
  | _ => True
  end.

Definition is_cx (g : gate) : bool :=
  match g with
  | gate_cx _ _ => true
  | _ => false
  end.

(** The rotation that [AddError] gives the qubit at [address] of a
    register of size [num], as a fraction of pi: the last qubit and the
    even addresses before it are rotated as code qubits, the odd addresses
    before it as ancillas. *)
Definition error_fraction (num : Z) (bit : nat) (address : Z) : Qc :=
  if bool_decide (address = (num - 1)%Z ∨ (address mod 2 = 0)%Z)
  then (if bool_decide (bit = 1%nat) then Q2Qc 0.05 * 2 else Q2Qc 0.05)
  else Q2Qc 0.05.

(** ** Further notions: the decoder *)

(** The overlap of two lookup tables: for every string that both hold,
    the smaller of its two probabilities. *)
Definition overlap (r0 r1 : gmap string Qc) : gmap string Qc :=
  intersection_with
    (λ p0 p1, Some (if bool_decide (p0 ≤ p1) then p0 else p1)) r0 r1.

(** ** Further notions: the backend and the statistics *)

(** The counts of a completed job: no key ["status"], non-negative
    values, one count for each of the [shots] runs. *)
Definition complete_counts (cnts : gmap string Qc) : Prop :=
  ("status"%string ∉ dom cnts) ∧ nonneg cnts ∧ total cnts = Qc_of_Z shots.

(** A number that can be a probability. *)
Definition probability (p : Qc) : Prop := 0 ≤ p ∧ p ≤ 1.

(** ** The tables of section 4 *)

(** [l[i]] on a Python list: negative indices count from the end, anything
    outside [-len(l) .. len(l)-1] raises [IndexError]. *)
Definition list_index {A} (l : list A) (i : Z) : res A :=
  let n := Z.of_nat (length l) in
  let j := if (i <? 0)%Z then (n + i)%Z else i in
  if ((0 <=? j)%Z && (j <? n)%Z)%bool then
    match l !! Z.to_nat j with
    | Some x => Ok x
    | None => Raise IndexError
    end
  else Raise IndexError.

(** [l[i] = x]. *)
Definition list_assign {A} (l : list A) (i : Z) (x : A) : res (list A) :=
  let n := Z.of_nat (length l) in
  let j := if (i <? 0)%Z then (n + i)%Z else i in
  if ((0 <=? j)%Z && (j <? n)%Z)%bool then Ok (<[Z.to_nat j := x]> l)
  else Raise IndexError.

(** [table[row][bit] op= x] for [+=] and [-=]: the row is fetched, its
    entry read, the right-hand side evaluated, and the result stored in
    that row.  The rows of a table built by [[ [0]*2 for _ in range(6)]]
    are six distinct lists, so a store into one row changes no other
    row; the table with the new row is returned. *)
Definition table_augment (op : Qc → Qc → Qc) (table : list (list Qc))
    (row bit : Z) (x : res Qc) : res (list (list Qc)) :=
  r <- list_index table row ;;
  old <- list_index r bit ;;
  v <- x ;;
  r' <- list_assign r bit (op old v) ;;
  list_assign table row r'.

(** [[ [0]*2 for _ in range(6)]]. *)
Definition initial_table : list (list Qc) := replicate 6 (replicate 2 0).

Record stats : Type := Stats {
  errorFullMean : list (list Qc);
  errorFullVar : list (list Qc);
  errorCodeMean : list (list Qc);
  errorCodeVar : list (list Qc);
  errorSingleMean : list (list Qc);
  errorSingleVar : list (list Qc)
}.

Definition initial_stats : stats :=
  Stats initial_table initial_table initial_table initial_table
        initial_table initial_table.

(** What [GetData] returns: [errorFull], [errorCode] and [errorSingle]. *)
Record errors : Type := Errors {
  errorFull : list Qc;
  errorCode : list Qc;
  errorSingle : list Qc
}.

(** The body of the loop [for bit in [0,1]] that adds the errors of one
    run to the means and variances. *)
Definition record_bit (totalRuns d : Z) (out : errors) (s : stats) (bit : Z)
    : res stats :=
  let share (values : list Qc) : res Qc :=
    e <- list_index values bit ;; Ok (e / Qc_of_Z totalRuns) in
  let share_of_square (values : list Qc) : res Qc :=
    e <- list_index values bit ;; Ok ((e * e) / Qc_of_Z totalRuns) in
  fm <- table_augment Qcplus (errorFullMean s) (d - 3) bit (share (errorFull out)) ;;
  fv <- table_augment Qcplus (errorFullVar s) (d - 3) bit
          (share_of_square (errorFull out)) ;;
  cm <- table_augment Qcplus (errorCodeMean s) (d - 3) bit (share (errorCode out)) ;;
  cv <- table_augment Qcplus (errorCodeVar s) (d - 3) bit
          (share_of_square (errorCode out)) ;;
  sm <- table_augment Qcplus (errorSingleMean s) (d - 3) bit
          (share (errorSingle out)) ;;
  sv <- table_augment Qcplus (errorSingleVar s) (d - 3) bit
          (share_of_square (errorSingle out)) ;;
  Ok (Stats fm fv cm cv sm sv).

(** The body of the loop that finishes the variances:
    [error*Var[d-3][bit] -= error*Mean[d-3][bit]**2]. *)
Definition finish_bit (d : Z) (s : stats) (bit : Z) : res stats :=
  let square_of_mean (table : list (list Qc)) : res Qc :=
    r <- list_index table (d - 3) ;;
    m <- list_index r bit ;;
    Ok (m * m) in
  fv <- table_augment Qcminus (errorFullVar s) (d - 3) bit
          (square_of_mean (errorFullMean s)) ;;
  cv <- table_augment Qcminus (errorCodeVar s) (d - 3) bit
          (square_of_mean (errorCodeMean s)) ;;
  sv <- table_augment Qcminus (errorSingleVar s) (d - 3) bit
          (square_of_mean (errorSingleMean s)) ;;
  Ok (Stats (errorFullMean s) fv (errorCodeMean s) cv (errorSingleMean s) sv).

(** The body of the loop [for d in range(3,maxSize+1)]: the runs of one
    code distance, then the finishing of its variances.  [outcome d run]
    stands for what [GetData(d,device,False)] returns in run [run] of
    distance [d]. *)
Definition record_distance (totalRuns : Z) (outcome : Z → Z → errors)
    (s : stats) (d : Z) : res stats :=
  s <- for_each (λ s run, for_each (record_bit totalRuns d (outcome d run)) [0; 1]%Z s)
         (range3 0 totalRuns 1) s ;;
  for_each (finish_bit d) [0; 1]%Z s.

(** The whole of the loop of section 4, from freshly initialised tables. *)
Definition record_all (maxSize totalRuns : Z) (outcome : Z → Z → errors)
    : res stats :=
  for_each (record_distance totalRuns outcome) (range3 3 (maxSize + 1) 1)
    initial_stats.

(** The entry [table[row][bit]] for indices that are not negative. *)
Definition table_cell (table : list (list Qc)) (row bit : Z) : option Qc :=
  table !! Z.to_nat row ≫= (λ r, r !! Z.to_nat bit).

(** The values that one of the lists returned by [GetData] takes at [bit]
    in the successive runs of distance [d]. *)
Definition run_values (view : errors → list Qc) (outcome : Z → Z → errors)
    (totalRuns d bit : Z) : list Qc :=
  (λ run, default 0 (view (outcome d run) !! Z.to_nat bit))
    <$> range3 0 totalRuns 1.

(** A table of six rows of two entries. *)
Definition shaped (table : list (list Qc)) : Prop :=
  length table = 6%nat ∧ Forall (λ r, length r = 2%nat) table.

Definition shaped_stats (s : stats) : Prop :=
  shaped (errorFullMean s) ∧ shaped (errorFullVar s)
  ∧ shaped (errorCodeMean s) ∧ shaped (errorCodeVar s)
  ∧ shaped (errorSingleMean s) ∧ shaped (errorSingleVar s).

(** The table with [f] applied to its entry at [row] and [bit]. *)
Definition cell_update (f : Qc → Qc) (table : list (list Qc)) (row bit : Z)
    : list (list Qc) :=
  alter (alter f (Z.to_nat bit)) (Z.to_nat row) table.

(** The entry at [row] and [bit], 0 where there is none. *)
Definition read (table : list (list Qc)) (row bit : Z) : Qc :=
  default 0 (table_cell table row bit).

Definition value_at (values : list Qc) (bit : Z) : Qc :=
  default 0 (values !! Z.to_nat bit).

(** What [record_bit] and [finish_bit] compute when no index is out of
    range. *)
Definition stats_bit (totalRuns d : Z) (out : errors) (s : stats) (bit : Z)
    : stats :=
  let share values := value_at values bit / Qc_of_Z totalRuns in
  let share_of_square values :=
    (value_at values bit * value_at values bit) / Qc_of_Z totalRuns in
  Stats
    (cell_update (λ old, old + share (errorFull out)) (errorFullMean s) (d - 3) bit)
    (cell_update (λ old, old + share_of_square (errorFull out))
       (errorFullVar s) (d - 3) bit)
    (cell_update (λ old, old + share (errorCode out)) (errorCodeMean s) (d - 3) bit)
    (cell_update (λ old, old + share_of_square (errorCode out))
       (errorCodeVar s) (d - 3) bit)
    (cell_update (λ old, old + share (errorSingle out))
       (errorSingleMean s) (d - 3) bit)
    (cell_update (λ old, old + share_of_square (errorSingle out))
       (errorSingleVar s) (d - 3) bit).

Definition stats_finish_bit (d : Z) (s : stats) (bit : Z) : stats :=
  let square_of_mean table := read table (d - 3) bit * read table (d - 3) bit in
  Stats
    (errorFullMean s)
    (cell_update (λ old, old - square_of_mean (errorFullMean s))
       (errorFullVar s) (d - 3) bit)
    (errorCodeMean s)
    (cell_update (λ old, old - square_of_mean (errorCodeMean s))
       (errorCodeVar s) (d - 3) bit)
    (errorSingleMean s)
    (cell_update (λ old, old - square_of_mean (errorSingleMean s))
       (errorSingleVar s) (d - 3) bit).

Definition stats_distance (totalRuns : Z) (outcome : Z → Z → errors)
    (s : stats) (d : Z) : stats :=
  foldl (stats_finish_bit d)
    (foldl (λ s run, foldl (stats_bit totalRuns d (outcome d run)) s [0; 1]%Z)
       s (range3 0 totalRuns 1))
    [0; 1]%Z.

(** Each of the three lists that [GetData] returns has two entries. *)
Definition two_values (out : errors) : Prop :=
  length (errorFull out) = 2%nat ∧ length (errorCode out) = 2%nat
  ∧ length (errorSingle out) = 2%nat.

(** The mean and variance accumulators of one view at [row] and [bit]. *)
Definition cell_at (getM getV : stats → list (list Qc)) (s : stats)
    (row bit : Z) : cell :=
  Cell (read (getM s) row bit) (read (getV s) row bit).

(** * Properties *)

(** ** Sums of rationals and of dictionary values *)

Section Sums.

Lemma Qc_sum_nil : Qc_sum [] = 0.
Proof. reflexivity. Qed.

Lemma Qc_sum_cons x l : Qc_sum (x :: l) = x + Qc_sum l.
Proof. reflexivity. Qed.

Lemma Qc_sum_app l1 l2 : Qc_sum (l1 ++ l2) = Qc_sum l1 + Qc_sum l2.
Proof.
  induction l1 as [|x l1 IH].
  - simpl. now rewrite Qc_sum_nil, Qcplus_0_l.
  - rewrite <-app_comm_cons, !Qc_sum_cons, IH. ring.
Qed.

Lemma Qc_sum_perm l1 l2 : l1 ≡ₚ l2 → Qc_sum l1 = Qc_sum l2.
Proof.
  induction 1 as [|x l1 l2 _ IH|x y l|l1 l2 l3 _ IH1 _ IH2].
  - reflexivity.
  - rewrite !Qc_sum_cons. now rewrite IH.
  - rewrite !Qc_sum_cons. ring.
  - now rewrite IH1.
Qed.

Lemma Qc_sum_scale (c : Qc) l : Qc_sum (Qcmult c <$> l) = c * Qc_sum l.
Proof.
  induction l as [|x l IH].
  - simpl. rewrite Qc_sum_nil. ring.
  - rewrite fmap_cons, !Qc_sum_cons, IH. ring.
Qed.

Lemma Qc_sum_zero l : Forall (λ x, x = 0) l → Qc_sum l = 0.
Proof.
  induction 1 as [|x l -> _ IH]; [reflexivity|].
  rewrite Qc_sum_cons, IH. ring.
Qed.

Lemma Qc_sum_nonneg l : Forall (λ x, 0 ≤ x) l → 0 ≤ Qc_sum l.
Proof.
  induction 1 as [|x l Hx _ IH]; [apply Qcle_refl|].
  rewrite Qc_sum_cons. now apply Qcplus_nonneg_nonneg.
Qed.

Lemma Qc_sum_le l1 l2 : Forall2 Qcle l1 l2 → Qc_sum l1 ≤ Qc_sum l2.
Proof.
  induction 1 as [|x y l1 l2 Hxy _ IH]; [apply Qcle_refl|].
  rewrite !Qc_sum_cons. now apply Qcplus_le_compat.
Qed.

Lemma total_empty : total ∅ = 0.
Proof. unfold total. now rewrite map_to_list_empty. Qed.

Lemma total_insert_fresh (m : gmap string Qc) k v :
  m !! k = None → total (<[k := v]> m) = v + total m.
Proof.
  intros Hk. unfold total.
  rewrite (Qc_sum_perm _ (snd <$> (k, v) :: map_to_list m)).
  - reflexivity.
  - apply fmap_Permutation. now apply map_to_list_insert.
Qed.

Lemma total_delete (m : gmap string Qc) k v :
  m !! k = Some v → total m = v + total (delete k m).
Proof.
  intros Hk. rewrite <-(insert_delete_id m k v) at 1 by done.
  apply total_insert_fresh, lookup_delete_eq.
Qed.

End Sums.

(** ** [AddProbToResults] *)

Section AddProb.

Implicit Types (results : gmap string Qc) (prob : Qc) (key : string).

Lemma AddProbToResults_insert prob key results :
  AddProbToResults prob key results
  = <[key := default 0 (results !! key) + prob]> results.
Proof.
  unfold AddProbToResults.
  destruct (results !! key) as [old|] eqn:Hk; simpl.
  - rewrite bool_decide_eq_false_2.
    + apply map_eq. intros j.
      destruct (decide (key = j)) as [<-|Hne].
      * now rewrite lookup_alter_eq, lookup_insert_eq, Hk.
      * now rewrite lookup_alter_ne, lookup_insert_ne.
    + intros Hn. apply Hn, elem_of_dom. now exists old.
  - rewrite bool_decide_eq_true_2 by now apply not_elem_of_dom.
    apply map_eq. intros j.
    destruct (decide (key = j)) as [<-|Hne].
    + now rewrite lookup_alter_eq, !lookup_insert_eq.
    + now rewrite lookup_alter_ne, !lookup_insert_ne.
Qed.

Lemma total_AddProbToResults prob key results :
  total (AddProbToResults prob key results) = total results + prob.
Proof.
  rewrite AddProbToResults_insert.
  destruct (results !! key) as [old|] eqn:Hk; simpl.
  - rewrite (total_delete results key old Hk).
    rewrite <-insert_delete_eq.
    rewrite total_insert_fresh by apply lookup_delete_eq. ring.
  - rewrite total_insert_fresh by done. ring.
Qed.

(** C10.  [AddProbToResults(prob, string, results)] sets the entry at
    [string] to its previous value (0 when the key was absent) plus
    [prob], and leaves the value at every other key unchanged. *)
Theorem AddProbToResults_frame prob key results :
  AddProbToResults prob key results !! key
    = Some (default 0 (results !! key) + prob)
  ∧ ∀ other, other ≠ key →
      AddProbToResults prob key results !! other = results !! other.
Proof.
  rewrite AddProbToResults_insert. split.
  - apply lookup_insert_eq.
  - intros other Hne. now apply lookup_insert_ne.
Qed.

End AddProb.

Lemma AddProbToResults_frame_witness :
  AddProbToResults (Q2Qc 0.1) "001" example_table0 !! "001"%string
    = Some (default 0 (example_table0 !! "001"%string) + Q2Qc 0.1)
  ∧ AddProbToResults (Q2Qc 0.1) "001" example_table0 !! "111"%string
    = example_table0 !! "111"%string.
Proof.
  destruct (AddProbToResults_frame (Q2Qc 0.1) "001" example_table0) as [H1 H2].
  split; [exact H1|]. apply H2. discriminate.
Defined.

(** ** [CalculateError] *)

(** Equal outcomes from equal rationals. *)
Ltac ok_ring := apply (f_equal Ok); ring.

Section Decoder.

Implicit Types (r table other : gmap string Qc) (bit : nat).

Lemma CalculateError_body_contribution bit results other error entry :
  results !! ((bit + 1) mod 2)%nat = Some other →
  CalculateError_body bit results error entry
  = Ok (error + contribution other entry).
Proof.
  intros Hother. unfold CalculateError_body, contribution.
  rewrite Hother. simpl.
  change (match other !! entry.1 with Some w => w | None => 0 end)
    with (default 0 (other !! entry.1)).
  repeat case_bool_decide; ok_ring.
Qed.

Lemma CalculateError_loop bit results other l error :
  results !! ((bit + 1) mod 2)%nat = Some other →
  for_each (CalculateError_body bit results) l error
  = Ok (error + Qc_sum (contribution other <$> l)).
Proof.
  intros Hother. revert error.
  induction l as [|entry l IH]; intros error.
  - simpl. rewrite Qc_sum_nil. ok_ring.
  - rewrite fmap_cons, Qc_sum_cons. cbn [for_each].
    rewrite (CalculateError_body_contribution _ _ other) by done.
    cbn [bind]. rewrite IH. ok_ring.
Qed.

Lemma CalculateError_sum bit results table other :
  results !! bit = Some table →
  results !! ((bit + 1) mod 2)%nat = Some other →
  CalculateError bit results
  = Ok (Qc_sum (contribution other <$> map_to_list table)).
Proof.
  intros Htable Hother. unfold CalculateError. rewrite Htable. simpl.
  rewrite (CalculateError_loop _ _ other) by done. ok_ring.
Qed.

(** The two tables of a pair, seen from [bit]. *)
Lemma pair_tables bit r0 r1 table :
  [r0; r1] !! bit = Some table →
  ∃ other, [r0; r1] !! ((bit + 1) mod 2)%nat = Some other
           ∧ ((bit = 0%nat ∧ table = r0 ∧ other = r1)
              ∨ (bit = 1%nat ∧ table = r1 ∧ other = r0)).
Proof.
  destruct bit as [|[|bit]]; simpl; intros [= <-].
  - exists r1. auto.
  - exists r0. auto.
Qed.

Lemma half_le (v : Qc) : 0 ≤ v → 0 ≤ Q2Qc 0.5 * v ∧ Q2Qc 0.5 * v ≤ v.
Proof.
  intros Hv. split.
  - replace 0 with (0 * v) by ring.
    apply Qcmult_le_compat_r; [|done]. by vm_compute.
  - replace v with (1 * v) at 2 by ring.
    apply Qcmult_le_compat_r; [|done]. by vm_compute.
Qed.

Lemma contribution_bounds other key v :
  0 ≤ v → 0 ≤ contribution other (key, v) ∧ contribution other (key, v) ≤ v.
Proof.
  intros Hv. unfold contribution. simpl.
  repeat case_bool_decide.
  - split; [done|apply Qcle_refl].
  - by apply half_le.
  - split; [apply Qcle_refl|done].
Qed.

Lemma contribution_tie table key v :
  table !! key = Some v → contribution table (key, v) = Q2Qc 0.5 * v.
Proof.
  intros Hk. unfold contribution. simpl. rewrite Hk. simpl.
  rewrite bool_decide_eq_false_2 by (intros H; by apply Qclt_not_eq in H).
  now rewrite bool_decide_eq_true_2.
Qed.

Lemma contribution_disjoint other key v :
  0 ≤ v →
  (∀ w, other !! key = Some w → v = 0 ∨ w = 0) →
  contribution other (key, v) = 0.
Proof.
  intros Hv Hdis. unfold contribution. simpl.
  destruct (other !! key) as [w|] eqn:Hw; simpl.
  - destruct (Hdis w eq_refl) as [->| ->].
    + repeat case_bool_decide; try done. ring.
    + rewrite bool_decide_eq_false_2 by now apply Qcle_not_lt.
      case_bool_decide as Heq; [|done]. rewrite <-Heq. ring.
  - rewrite bool_decide_eq_false_2 by now apply Qcle_not_lt.
    case_bool_decide as Heq; [|done]. rewrite <-Heq. ring.
Qed.

(** C1.  On the lookup tables of the worked example (d = 3),
    [CalculateError(0, results)] is 0.01 + 0.01 + 0.01 + 0.001 = 0.031 in
    exact arithmetic, and so is [CalculateError(1, results)]. *)
Theorem CalculateError_example :
  CalculateError 0 [example_table0; example_table1] = Ok (Q2Qc 0.031)
  ∧ CalculateError 1 [example_table0; example_table1] = Ok (Q2Qc 0.031)
  ∧ Q2Qc 0.01 + Q2Qc 0.01 + Q2Qc 0.01 + Q2Qc 0.001 = Q2Qc 0.031.
Proof.
  split; [|split].
  - rewrite (CalculateError_sum 0 _ example_table0 example_table1) by done.
    apply (f_equal Ok), Qc_is_canon. by vm_compute.
  - rewrite (CalculateError_sum 1 _ example_table1 example_table0) by done.
    apply (f_equal Ok), Qc_is_canon. by vm_compute.
  - apply Qc_is_canon. by vm_compute.
Qed.

(** C3.  When the two lookup tables are equal as mappings and their
    values sum to 1, every string is a tie and [CalculateError] returns
    exactly 0.5 for [bit = 0] and for [bit = 1]. *)
Theorem CalculateError_total_ambiguity r0 r1 :
  r0 = r1 →
  total r0 = 1 →
  CalculateError 0 [r0; r1] = Ok (Q2Qc 0.5)
  ∧ CalculateError 1 [r0; r1] = Ok (Q2Qc 0.5).
Proof.
  intros <- Hsum.
  assert (Qc_sum (contribution r0 <$> map_to_list r0) = Q2Qc 0.5) as Hhalf.
  { rewrite <-(Qcmult_1_r (Q2Qc 0.5)), <-Hsum. unfold total.
    rewrite <-Qc_sum_scale, <-list_fmap_compose.
    f_equal. apply Forall_fmap_ext, list.Forall_forall.
    intros [key v] Hin. apply contribution_tie.
    now apply elem_of_map_to_list. }
  split.
  - rewrite (CalculateError_sum 0 _ r0 r0) by done. now rewrite Hhalf.
  - rewrite (CalculateError_sum 1 _ r0 r0) by done. now rewrite Hhalf.
Qed.

Lemma CalculateError_disjoint_one table other :
  nonneg table →
  (∀ key v w, table !! key = Some v → other !! key = Some w → v = 0 ∨ w = 0) →
  Qc_sum (contribution other <$> map_to_list table) = 0.
Proof.
  intros Hpos Hdis. apply Qc_sum_zero, Forall_fmap, list.Forall_forall.
  intros [key v] Hin%elem_of_map_to_list. simpl.
  apply contribution_disjoint; [by eapply Hpos|].
  intros w Hw. by eapply Hdis.
Qed.

(** C4.  When the two lookup tables (with non-negative values, as
    probabilities are) have disjoint support, [CalculateError] returns
    exactly 0 for [bit = 0] and for [bit = 1]. *)
Theorem CalculateError_perfect_separability r0 r1 :
  nonneg r0 →
  nonneg r1 →
  disjoint_support r0 r1 →
  CalculateError 0 [r0; r1] = Ok 0 ∧ CalculateError 1 [r0; r1] = Ok 0.
Proof.
  intros H0 H1 Hdis. split.
  - rewrite (CalculateError_sum 0 _ r0 r1) by done. f_equal.
    apply CalculateError_disjoint_one; [done|].
    intros key v w Hv Hw. by eapply Hdis.
  - rewrite (CalculateError_sum 1 _ r1 r0) by done. f_equal.
    apply CalculateError_disjoint_one; [done|].
    intros key v w Hv Hw. destruct (Hdis key w v Hw Hv); auto.
Qed.

(** The non-negativity of the values matters: a negative value under the
    true hypothesis is added to the error as it is. *)
Example CalculateError_negative_value :
  CalculateError 0 [{["0"%string := -1]}; ∅] = Ok (-1).
Proof.
  rewrite (CalculateError_sum 0 _ {["0"%string := -1]} ∅) by done.
  apply (f_equal Ok), Qc_is_canon. by vm_compute.
Qed.

(** C5.  For [bit] in {0, 1}, when the values of [results[bit]] are
    non-negative and sum to at most 1, [CalculateError(bit, results)]
    returns a value between 0 and the mass of [results[bit]], hence in
    the closed interval [0, 1]. *)
Theorem CalculateError_in_unit_interval bit r0 r1 table :
  [r0; r1] !! bit = Some table →
  nonneg table →
  total table ≤ 1 →
  ∃ error, CalculateError bit [r0; r1] = Ok error
           ∧ 0 ≤ error ∧ error ≤ total table ∧ error ≤ 1.
Proof.
  intros Htable Hpos Hmass.
  destruct (pair_tables _ _ _ _ Htable) as (other & Hother & _).
  exists (Qc_sum (contribution other <$> map_to_list table)).
  split; [by apply CalculateError_sum|].
  assert (Forall (λ e : string * Qc, 0 ≤ e.2) (map_to_list table)) as Hall.
  { apply list.Forall_forall. intros [key v] Hin%elem_of_map_to_list.
    by eapply Hpos. }
  assert (Qc_sum (contribution other <$> map_to_list table) ≤ total table)
    as Hle.
  { apply Qc_sum_le, Forall2_fmap, Forall_Forall2_diag.
    eapply list.Forall_impl; [exact Hall|].
    intros [key v] Hv. by apply contribution_bounds. }
  split; [|split; [done|by eapply Qcle_trans]].
  apply Qc_sum_nonneg, Forall_fmap.
  eapply list.Forall_impl; [exact Hall|].
  intros [key v] Hv. by apply contribution_bounds.
Qed.

End Decoder.

Lemma CalculateError_total_ambiguity_witness :
  CalculateError 0 [example_table0; example_table0] = Ok (Q2Qc 0.5)
  ∧ CalculateError 1 [example_table0; example_table0] = Ok (Q2Qc 0.5).
Proof.
  apply CalculateError_total_ambiguity.
  - reflexivity.
  - apply Qc_is_canon. by vm_compute.
Defined.

Lemma CalculateError_perfect_separability_witness :
  CalculateError 0 [{["000"%string := 1]}; {["111"%string := 1]}] = Ok 0
  ∧ CalculateError 1 [{["000"%string := 1]}; {["111"%string := 1]}] = Ok 0.
Proof.
  apply CalculateError_perfect_separability.
  - intros key v [_ <-]%lookup_singleton_Some. by vm_compute.
  - intros key v [_ <-]%lookup_singleton_Some. by vm_compute.
  - intros key v0 v1 [<- _]%lookup_singleton_Some [[=] _]%lookup_singleton_Some.
Defined.

Lemma CalculateError_in_unit_interval_witness :
  ∃ error, CalculateError 0 [example_table0; example_table1] = Ok error
           ∧ 0 ≤ error ∧ error ≤ total example_table0 ∧ error ≤ 1.
Proof.
  apply (CalculateError_in_unit_interval 0 example_table0 example_table1
           example_table0).
  - reflexivity.
  - apply (bool_decide_unpack (map_Forall (λ _ v, 0 ≤ v) example_table0)).
    by vm_compute.
  - by vm_compute.
Defined.

(** ** The accumulation loop of [GetData] *)

Section Accumulate.

Implicit Types (raw : gmap string value) (acc : views).

Lemma GetData_body_total d simulator acc entry acc' :
  GetData_body is_not_str d simulator acc entry = Ok acc' →
  total (viewFull acc') = total (viewFull acc) + number_of entry.2
  ∧ total (viewCode acc') = total (viewCode acc) + number_of entry.2
  ∧ total (viewSingle acc') = total (viewSingle acc) + number_of entry.2.
Proof.
  unfold GetData_body. destruct entry as [stringRaw v]. simpl.
  destruct v as [q|s|]; simpl.
  - destruct (remap d simulator stringRaw) as [[[sf sc] ss]| |]; simpl;
      intros [= <-]; simpl.
    by rewrite !total_AddProbToResults.
  - destruct (remap d simulator stringRaw) as [[[sf sc] ss]| |]; simpl;
      intros [=].
  - intros [= <-]. repeat split; ring.
Qed.

Lemma accumulate_loop_total d simulator l acc result :
  for_each (GetData_body is_not_str d simulator) l acc = Ok result →
  total (viewFull result) = total (viewFull acc) + Qc_sum (number_of <$> l.*2)
  ∧ total (viewCode result) = total (viewCode acc) + Qc_sum (number_of <$> l.*2)
  ∧ total (viewSingle result)
    = total (viewSingle acc) + Qc_sum (number_of <$> l.*2).
Proof.
  revert acc. induction l as [|entry l IH]; intros acc.
  - simpl. intros [= <-]. rewrite Qc_sum_nil. repeat split; ring.
  - cbn [for_each]. rewrite !fmap_cons, Qc_sum_cons.
    destruct (GetData_body is_not_str d simulator acc entry) as [acc'| |] eqn:Hb;
      cbn [bind]; [|done..].
    intros Hrest. apply IH in Hrest as (Hf & Hc & Hs).
    apply GetData_body_total in Hb as (Hf' & Hc' & Hs').
    rewrite Hf, Hc, Hs, Hf', Hc', Hs'. repeat split; ring.
Qed.

Lemma number_of_raw (table : gmap string Qc) :
  Qc_sum (number_of <$> (map_to_list (Num <$> table)).*2) = total table.
Proof.
  unfold total. rewrite (Qc_sum_perm _ (snd <$> map_to_list table)); [done|].
  rewrite map_to_list_fmap, <-!list_fmap_compose.
  erewrite list_fmap_ext; [reflexivity|]. by intros i [key v] _.
Qed.

Lemma accumulate_totals d simulator (table : gmap string Qc) result :
  accumulate d simulator (Num <$> table) = Ok result →
  total (viewFull result) = total table
  ∧ total (viewCode result) = total table
  ∧ total (viewSingle result) = total table.
Proof.
  unfold accumulate, accumulate_with. intros Hloop.
  apply accumulate_loop_total in Hloop as (Hf & Hc & Hs).
  rewrite number_of_raw in Hf, Hc, Hs. simpl in Hf, Hc, Hs.
  rewrite total_empty in Hf, Hc, Hs.
  rewrite Hf, Hc, Hs. repeat split; ring.
Qed.

(** C2.  Whenever the accumulation loop of [GetData] has processed a raw
    outcome distribution, the values of each of the three derived
    distributions (full, code qubits only, single qubit) sum to exactly
    the total of the raw values; a raw total of 1 gives three totals
    of 1. *)
Theorem accumulate_conserves_mass d simulator (table : gmap string Qc) result :
  accumulate d simulator (Num <$> table) = Ok result →
  (total (viewFull result) = total table
   ∧ total (viewCode result) = total table
   ∧ total (viewSingle result) = total table)
  ∧ (total table = 1 →
     total (viewFull result) = 1
     ∧ total (viewCode result) = 1
     ∧ total (viewSingle result) = 1).
Proof.
  intros (Hf & Hc & Hs)%accumulate_totals. split; [done|].
  intros Hone. by rewrite Hf, Hc, Hs.
Qed.

Lemma accumulate_guard_redundant d simulator raw :
  (∀ key v, raw !! key = Some v → v ≠ StrType) →
  accumulate d simulator raw = accumulate_unguarded d simulator raw.
Proof.
  intros Hraw. unfold accumulate, accumulate_unguarded, accumulate_with.
  assert (Forall (λ e : string * value, e.2 ≠ StrType) (map_to_list raw))
    as Hall.
  { apply list.Forall_forall. intros [key v] Hin%elem_of_map_to_list.
    by eapply Hraw. }
  generalize (Views ∅ ∅ ∅).
  induction Hall as [|[key v] l Hv _ IH]; intros acc; [done|].
  cbn [for_each].
  assert (GetData_body is_not_str d simulator acc (key, v)
          = GetData_body (λ _, true) d simulator acc (key, v)) as ->.
  { unfold GetData_body. simpl. by destruct v. }
  destruct (GetData_body _ d simulator acc (key, v)); simpl; [apply IH|done..].
Qed.

End Accumulate.

(** ** [RunRepetition] and the backend *)

Section Backend.

Implicit Types (j : job) (rs : list (gmap string value)) (w : world).

Lemma run_until_data_ok j rs jobs results w' :
  run_until_data j rs jobs = (Ok results, w') → ¬ incomplete results.
Proof.
  revert jobs. induction rs as [|r rs IH]; intros jobs; simpl; [done|].
  case_bool_decide as Hst; [|apply IH].
  by intros [= <- _].
Qed.

Lemma run_until_data_no_exception j rs jobs e w' :
  run_until_data j rs jobs ≠ (Raise e, w').
Proof.
  revert jobs. induction rs as [|r rs IH]; intros jobs; simpl; [done|].
  case_bool_decide; [done|apply IH].
Qed.

Lemma run_until_data_retry j pre good rest jobs :
  Forall incomplete pre →
  ¬ incomplete good →
  run_until_data j (pre ++ good :: rest) jobs
  = (Ok good, World rest (jobs ++ replicate (S (length pre)) j)).
Proof.
  intros Hpre Hgood. revert jobs.
  induction Hpre as [|r pre Hr _ IH]; intros jobs; simpl.
  - by rewrite bool_decide_eq_true_2.
  - rewrite bool_decide_eq_false_2 by (intros Hn; by apply Hn).
    rewrite IH. by rewrite <-app_assoc.
Qed.

Lemma run_until_data_submits j rs jobs :
  ∃ more, submitted (run_until_data j rs jobs).2 = jobs ++ j :: more.
Proof.
  revert jobs. induction rs as [|r rs IH]; intros jobs; simpl.
  - by exists [].
  - case_bool_decide; simpl; [by exists []|].
    destruct (IH (jobs ++ [j])) as [more ->].
    exists (j :: more). by rewrite <-app_assoc.
Qed.

(** The loop that turns counts into fractions keeps the keys and leaves
    numbers only. *)
Lemma to_fractions_loop n keys (results result : gmap string value) :
  for_each (to_fractions_body n) keys results = Ok result →
  dom result = dom results
  ∧ (∀ key, key ∈ keys → ∃ q, result !! key = Some (Num q))
  ∧ (∀ key, key ∉ keys → result !! key = results !! key).
Proof.
  revert results. induction keys as [|key keys IH]; intros results.
  - simpl. intros [= <-]. split; [done|]. split; [|done].
    intros key Hin. by apply elem_of_nil in Hin.
  - cbn [for_each]. unfold to_fractions_body at 1.
    destruct (results !! key) as [old|] eqn:Hold; cbn [bind]; [|done].
    destruct old as [q|s|]; cbn [Py.div bind]; [|done..].
    intros (Hdom & Hin & Hout)%IH. split; [|split].
    + rewrite Hdom. apply dom_insert_lookup_L. by exists (Num q).
    + intros key' [->|Hkeys]%elem_of_cons; [|by apply Hin].
      destruct (decide (key ∈ keys)) as [Hk|Hk]; [by apply Hin|].
      rewrite (Hout _ Hk), lookup_insert_eq. by eexists.
    + intros key' [Hne Hk]%not_elem_of_cons.
      rewrite (Hout _ Hk). by apply lookup_insert_ne.
Qed.

Lemma to_fractions_loop_returns n keys (results : gmap string value) :
  (∀ key, key ∈ keys → ∃ q, results !! key = Some (Num q)) →
  ∃ result, for_each (to_fractions_body n) keys results = Ok result.
Proof.
  revert results. induction keys as [|key keys IH]; intros results Hnum.
  - by exists results.
  - cbn [for_each]. unfold to_fractions_body at 1.
    destruct (Hnum key) as [q ->]; [apply list_elem_of_here|].
    cbn [Py.div bind]. apply IH. intros key' Hin.
    destruct (decide (key' = key)) as [->|Hne].
    + rewrite lookup_insert_eq. by eexists.
    + rewrite lookup_insert_ne by done. by apply Hnum, list_elem_of_further.
Qed.

Lemma to_fractions_loop_value n keys (results result : gmap string value) :
  NoDup keys →
  for_each (to_fractions_body n) keys results = Ok result →
  ∀ key q, key ∈ keys → results !! key = Some (Num q) →
           result !! key = Some (Num (q / Qc_of_Z n)).
Proof.
  intros Hnodup. revert results.
  induction Hnodup as [|key keys Hnotin Hnodup IH]; intros results Hloop.
  - intros key q Hin. by apply elem_of_nil in Hin.
  - cbn [for_each] in Hloop. unfold to_fractions_body at 1 in Hloop.
    destruct (results !! key) as [old|] eqn:Hold; cbn [bind] in Hloop; [|done].
    destruct old as [q|s|]; cbn [Py.div bind] in Hloop; [|done..].
    intros key' q' [->|Hkeys]%elem_of_cons Hq'.
    + apply to_fractions_loop in Hloop as (_ & _ & Hout).
      rewrite (Hout _ Hnotin), lookup_insert_eq. congruence.
    + apply (IH _ Hloop); [done|].
      rewrite lookup_insert_ne; [done|]. by intros ->.
Qed.

(** On counts, the conversion to fractions divides every value by the
    number of shots. *)
Lemma to_fractions_numbers n (table : gmap string Qc) :
  to_fractions n (Num <$> table)
  = Ok (Num <$> ((λ q, q / Qc_of_Z n) <$> table)).
Proof.
  unfold to_fractions.
  assert (∀ key, key ∈ (map_to_list (Num <$> table)).*1 ↔ is_Some (table !! key))
    as Hkeys.
  { intros key. rewrite list_elem_of_fmap. split.
    - intros ([key' v] & -> & Hin%elem_of_map_to_list).
      rewrite lookup_fmap in Hin. simpl. by destruct (table !! key').
    - intros [q Hq]. exists (key, Num q). split; [done|].
      apply elem_of_map_to_list. by rewrite lookup_fmap, Hq. }
  destruct (to_fractions_loop_returns n (map_to_list (Num <$> table)).*1
              (Num <$> table)) as [result Hloop].
  { intros key [q Hq]%Hkeys. exists q. by rewrite lookup_fmap, Hq. }
  rewrite Hloop. apply (f_equal Ok), map_eq. intros key.
  rewrite !lookup_fmap. destruct (table !! key) as [q|] eqn:Hq; simpl.
  - apply (to_fractions_loop_value n (map_to_list (Num <$> table)).*1
             (Num <$> table)); [apply NoDup_fst_map_to_list|done|..].
    + apply Hkeys. by exists q.
    + by rewrite lookup_fmap, Hq.
  - apply to_fractions_loop in Hloop as (Hdom & _).
    apply not_elem_of_dom. rewrite Hdom. apply not_elem_of_dom.
    by rewrite lookup_fmap, Hq.
Qed.

Lemma to_fractions_ok n (results result : gmap string value) :
  to_fractions n results = Ok result →
  dom result = dom results
  ∧ ∀ key v, result !! key = Some v → ∃ q, v = Num q.
Proof.
  intros (Hdom & Hin & _)%to_fractions_loop. split; [done|].
  intros key v Hv.
  assert (key ∈ dom results) as [old Hold]%elem_of_dom.
  { rewrite <-Hdom. apply elem_of_dom. by exists v. }
  destruct (Hin key) as [q Hq].
  - apply list_elem_of_fmap. exists (key, old). split; [done|].
    by apply elem_of_map_to_list.
  - exists q. congruence.
Qed.

Lemma RunRepetition_unfold bit d device w :
  RunRepetition bit d device w
  = match RunRepetition_job bit d device with
    | Ok j =>
        match run_until_data j (responses w) (submitted w) with
        | (Ok results, w') => (to_fractions shots results, w')
        | (Raise e, w') => (Raise e, w')
        | (Hang, w') => (Hang, w')
        end
    | Raise e => (Raise e, w)
    | Hang => (Hang, w)
    end.
Proof.
  unfold RunRepetition, bindM, lift.
  destruct (RunRepetition_job bit d device); [|done..].
  by destruct (run_until_data _ _ _) as [[?| |] ?].
Qed.

Lemma RunRepetition_numbers bit d device w results w' :
  RunRepetition bit d device w = (Ok results, w') →
  ¬ incomplete results ∧ ∀ key v, results !! key = Some v → ∃ q, v = Num q.
Proof.
  rewrite RunRepetition_unfold.
  destruct (RunRepetition_job bit d device) as [j| |]; [|done..].
  destruct (run_until_data _ _ _) as [[r| |] w1] eqn:Hrun; [|done..].
  intros [= Hfrac <-]. apply run_until_data_ok in Hrun.
  apply to_fractions_ok in Hfrac as [Hdom Hnum]. split; [|done].
  unfold incomplete in *. by rewrite Hdom.
Qed.

(** What [RunRepetition] returns is a distribution: a mapping from strings
    to numbers. *)
Lemma RunRepetition_distribution bit d device w results w' :
  RunRepetition bit d device w = (Ok results, w') →
  results = Num <$> (number_of <$> results).
Proof.
  intros [_ Hnum]%RunRepetition_numbers. apply map_eq. intros key.
  rewrite !lookup_fmap. destruct (results !! key) as [v|] eqn:Hv; [|done].
  by destruct (Hnum key v Hv) as [q ->].
Qed.

Lemma RunRepetition_submitted bit d device w :
  ∃ more, submitted (RunRepetition bit d device w).2 = submitted w ++ more.
Proof.
  rewrite RunRepetition_unfold.
  destruct (RunRepetition_job bit d device) as [j| |];
    [|exists []; by rewrite app_nil_r..].
  destruct (run_until_data_submits j (responses w) (submitted w)) as [more Hm].
  exists (j :: more).
  by destruct (run_until_data _ _ _) as [[r| |] w1].
Qed.

Lemma RunRepetition_retry bit d device w j pre good rest :
  RunRepetition_job bit d device = Ok j →
  responses w = pre ++ good :: rest →
  Forall incomplete pre →
  ¬ incomplete good →
  RunRepetition bit d device w
  = (to_fractions shots good,
     World rest (submitted w ++ replicate (S (length pre)) j)).
Proof.
  intros Hjob Hresp Hpre Hgood.
  rewrite RunRepetition_unfold, Hjob, Hresp.
  by rewrite run_until_data_retry.
Qed.

(** C6.  [RunRepetition] never returns an incomplete backend result: the
    mapping it returns does not hold the key ["status"]; and on a backend
    whose responses start with incomplete ones followed by the counts of
    a completed job, it executes the same job once per incomplete
    response and once more, and returns the fractions of those counts. *)
Theorem RunRepetition_retries_until_complete bit d device w :
  (∀ results w',
     RunRepetition bit d device w = (Ok results, w') →
     "status"%string ∉ dom results)
  ∧ (∀ j pre (good : gmap string Qc) rest,
       RunRepetition_job bit d device = Ok j →
       responses w = pre ++ (Num <$> good) :: rest →
       Forall (λ r : gmap string value, "status"%string ∈ dom r) pre →
       "status"%string ∉ dom good →
       RunRepetition bit d device w
       = (Ok (Num <$> ((λ count, count / Qc_of_Z shots) <$> good)),
          World rest (submitted w ++ replicate (S (length pre)) j))).
Proof.
  split.
  - intros results w' Hrun. by apply RunRepetition_numbers in Hrun as [? _].
  - intros j pre good rest Hjob Hresp Hpre Hgood.
    rewrite (RunRepetition_retry _ _ _ _ j pre (Num <$> good) rest); try done.
    + by rewrite to_fractions_numbers.
    + unfold incomplete. by rewrite dom_fmap_L.
Qed.

End Backend.

Lemma RunRepetition_retries_until_complete_witness :
  ("status"%string ∉ dom example_fractions)
  ∧ RunRepetition 0 1 "local_qasm_simulator" example_retry_world
    = (Ok (Num <$> ((λ count, count / Qc_of_Z shots) <$> example_counts)),
       World [] (replicate 2 example_job)).
Proof.
  destruct (RunRepetition_retries_until_complete 0 1 "local_qasm_simulator"
              example_world) as [Hkeys _].
  destruct (RunRepetition_retries_until_complete 0 1 "local_qasm_simulator"
              example_retry_world) as [_ Hretry].
  split.
  - apply (Hkeys _ (RunRepetition 0 1 "local_qasm_simulator" example_world).2).
    vm_compute. reflexivity.
  - apply (Hretry example_job [{["status"%string := Str "Error"]}]
             example_counts []).
    + by vm_compute.
    + reflexivity.
    + constructor; [cbv beta|constructor].
      apply (bool_decide_unpack _). by vm_compute.
    + apply (bool_decide_unpack _). by vm_compute.
Defined.

(** ** [GetData] *)

Section GetData.

Lemma GetData_unguarded_eq d device verbose w :
  GetData d device verbose w = GetData_unguarded d device verbose w.
Proof.
  unfold GetData, GetData_unguarded, GetData_with, bindM, lift.
  destruct (RunRepetition 0 d device w) as [[raw0| |] w1] eqn:Hrun0; [|done..].
  rewrite (accumulate_guard_redundant _ _ raw0); last first.
  { intros key v Hv. apply RunRepetition_numbers in Hrun0 as [_ Hnum].
    by destruct (Hnum key v Hv) as [q ->]. }
  destruct (accumulate_unguarded _ _ raw0) as [v0| |]; [|done..].
  destruct (RunRepetition 1 d device w1) as [[raw1| |] w2] eqn:Hrun1; [|done..].
  rewrite (accumulate_guard_redundant _ _ raw1); [done|].
  intros key v Hv. apply RunRepetition_numbers in Hrun1 as [_ Hnum].
  by destruct (Hnum key v Hv) as [q ->].
Qed.

(** C9.  The guard [resultsRaw[bit][stringRaw] is not str] holds for
    every number and every string, so the guarded loop processes every
    key of a raw distribution: the accumulation of [GetData], and
    [GetData] itself, equal the same code with the guard removed. *)
Theorem GetData_guard_redundant :
  (∀ q, is_not_str (Num q) = true)
  ∧ (∀ s, is_not_str (Str s) = true)
  ∧ (∀ d simulator (raw : gmap string value),
       (∀ key v, raw !! key = Some v → v ≠ StrType) →
       accumulate d simulator raw = accumulate_unguarded d simulator raw)
  ∧ (∀ d device verbose w,
       GetData d device verbose w = GetData_unguarded d device verbose w).
Proof.
  repeat split; try done.
  - apply accumulate_guard_redundant.
  - apply GetData_unguarded_eq.
Qed.

Lemma GetData_submitted d device verbose w j :
  RunRepetition_job 0 d device = Ok j →
  ∃ more, submitted (GetData d device verbose w).2 = submitted w ++ j :: more.
Proof.
  intros Hjob.
  assert (∃ more, submitted (RunRepetition 0 d device w).2
                  = submitted w ++ j :: more) as [more0 Hfirst].
  { rewrite RunRepetition_unfold, Hjob.
    destruct (run_until_data_submits j (responses w) (submitted w))
      as [more Hm].
    exists more. by destruct (run_until_data _ _ _) as [[r| |] w1]. }
  unfold GetData, GetData_with, bindM, lift.
  destruct (RunRepetition 0 d device w) as [[raw0| |] w1]; simpl in Hfirst;
    [|by exists more0..].
  destruct (accumulate _ _ raw0) as [v0| |]; [|by exists more0..].
  destruct (RunRepetition_submitted 1 d device w1) as [more1 Hsecond].
  rewrite Hfirst, <-app_assoc in Hsecond. simpl in Hsecond.
  destruct (RunRepetition 1 d device w1) as [[raw1| |] w2]; simpl in Hsecond;
    [|by eexists..].
  destruct (accumulate _ _ raw1) as [v1| |]; [|by eexists..].
  repeat (match goal with
          | |- context [CalculateError ?b ?r] =>
              destruct (CalculateError b r); simpl
          end); by eexists.
Qed.

End GetData.

Lemma GetData_guard_redundant_witness :
  accumulate 1 true example_fractions
  = accumulate_unguarded 1 true example_fractions.
Proof.
  apply GetData_guard_redundant.
  apply (bool_decide_unpack
           (map_Forall (λ _ v, v ≠ StrType) example_fractions)).
  by vm_compute.
Defined.

(** ** The code distance is not checked *)

(** Closes goals stating that explicitly listed gates lie in a register. *)
Ltac in_register := repeat constructor; simpl; lia.

Section Distance.

Lemma GetAddress_device codeQubit offset :
  (0 ≤ GetAddress codeQubit offset false < 16)%Z.
Proof. unfold GetAddress. by apply Z.mod_pos_bound. Qed.

Lemma coupling_map_at_device a :
  (0 ≤ a < 16)%Z → ∃ l, coupling_map_at a = Ok l.
Proof.
  intros Ha. unfold coupling_map_at.
  assert (a ∈ seqZ 0 16) as Hin by (apply elem_of_seqZ; lia).
  vm_compute in Hin.
  repeat (apply elem_of_cons in Hin as [->|Hin]; [by eexists|]).
  by apply elem_of_nil in Hin.
Qed.

Lemma AddCnot_device script control target :
  (0 ≤ control < 16)%Z → (0 ≤ target < 16)%Z →
  Forall (gate_in_register 16) script →
  ∃ script', AddCnot script control target false = Ok script'
             ∧ Forall (gate_in_register 16) script'.
Proof.
  intros Hc Ht Hscript. unfold AddCnot.
  destruct (coupling_map_at_device control Hc) as [direct ->].
  destruct (coupling_map_at_device target Ht) as [reversed ->].
  cbn [bind]. rewrite orb_false_r.
  repeat case_bool_decide; eexists; (split; [done|]); try done.
  - apply Forall_app. split; [done|]. in_register.
  - apply Forall_app. split; [done|]. in_register.
Qed.

Lemma AddCnot_loop_device offset l script :
  Forall (gate_in_register 16) script →
  ∃ script',
    for_each (λ script codeQubit,
                AddCnot script (GetAddress codeQubit 0 false)
                  (GetAddress codeQubit offset false) false) l script
    = Ok script'
    ∧ Forall (gate_in_register 16) script'.
Proof.
  revert script. induction l as [|codeQubit l IH]; intros script Hscript.
  - by exists script.
  - cbn [for_each].
    destruct (AddCnot_device script (GetAddress codeQubit 0 false)
                (GetAddress codeQubit offset false))
      as (script1 & -> & Hscript1); [apply GetAddress_device..|done|].
    cbn [bind]. by apply IH.
Qed.

Lemma RunRepetition_script_device bit d :
  ∃ script, RunRepetition_script bit d false 16 = Ok script
            ∧ Forall (gate_in_register 16) script.
Proof.
  unfold RunRepetition_script, AddError.
  set (start := (if bool_decide (bit = 1%nat) then _ else _) ++ [gate_barrier]).
  assert (Forall (gate_in_register 16) start) as Hstart.
  { subst start. apply Forall_app. split; [|in_register].
    case_bool_decide; [|constructor].
    rewrite !Forall_app. split; [constructor|split].
    - apply Forall_fmap, list.Forall_forall. intros codeQubit _.
      apply GetAddress_device.
    - repeat constructor; apply GetAddress_device. }
  destruct (AddCnot_loop_device 1 (range (d - 1)) start Hstart)
    as (script1 & -> & Hscript1). cbn [bind].
  destruct (AddCnot_loop_device (-1) (range3 1 d 1) (script1 ++ [gate_barrier]))
    as (script2 & -> & Hscript2).
  { apply Forall_app. split; [done|]. in_register. }
  cbn [bind]. eexists. split; [done|].
  rewrite !Forall_app. repeat split; [done|in_register|].
  apply Forall_fmap, list.Forall_forall.
  intros address Hin%elem_of_seqZ. simpl. lia.
Qed.

Lemma RunRepetition_job_valid bit d device :
  device = "ibmqx3"%string ∨ d = 1%Z →
  ∃ j, RunRepetition_job bit d device = Ok j
       ∧ Forall (gate_in_register (job_qubits j)) (job_circuit j).
Proof.
  intros Hcase. unfold RunRepetition_job.
  case_bool_decide as Hdev.
  - destruct Hcase as [->| ->]; [done|].
    destruct bit as [|[|bit]]; eexists; (split; [by vm_compute|]);
      in_register.
  - destruct (RunRepetition_script_device bit d) as (script & -> & Hscript).
    by eexists.
Qed.

(** C7, as the code has it.  Neither [GetData] nor [RunRepetition]
    checks the code distance.  On the device ['ibmqx3'] for every [d],
    and on a simulator for [d = 1], [RunRepetition] builds a circuit all
    of whose addresses lie in the register and submits it to the
    backend as its first action, and so does [GetData]. *)
Theorem distance_not_checked d device :
  device = "ibmqx3"%string ∨ d = 1%Z →
  (∀ bit, ∃ j,
      RunRepetition_job bit d device = Ok j
      ∧ Forall (gate_in_register (job_qubits j)) (job_circuit j)
      ∧ ∀ w, ∃ more,
          submitted (RunRepetition bit d device w).2 = submitted w ++ j :: more)
  ∧ (∀ verbose w, ∃ j more,
        RunRepetition_job 0 d device = Ok j
        ∧ submitted (GetData d device verbose w).2 = submitted w ++ j :: more).
Proof.
  intros Hcase. split.
  - intros bit.
    destruct (RunRepetition_job_valid bit d device Hcase) as (j & Hjob & Hvalid).
    exists j. repeat split; [done..|].
    intros w. rewrite RunRepetition_unfold, Hjob.
    destruct (run_until_data_submits j (responses w) (submitted w))
      as [more Hm].
    exists more. by destruct (run_until_data _ _ _) as [[r| |] w1].
  - intros verbose w.
    destruct (RunRepetition_job_valid 0 d device Hcase) as (j & Hjob & _).
    destruct (GetData_submitted d device verbose w j Hjob) as [more Hm].
    by exists j, more.
Qed.

End Distance.

(** C7, as stated, fails: with code distance 1 (which is below 2),
    [GetData] on a simulator is not rejected; it submits two jobs and
    returns error estimates. *)
Lemma GetData_distance_one_not_rejected :
  (1 < 2)%Z
  ∧ ¬ rejected_before_execution 1 "local_qasm_simulator" false example_world
  ∧ (∃ errors, (GetData 1 "local_qasm_simulator" false example_world).1
               = Ok errors)
  ∧ length (submitted (GetData 1 "local_qasm_simulator" false example_world).2)
    = 2%nat.
Proof.
  split; [lia|]. split; [|split].
  - intros (e & He & _). vm_compute in He. discriminate.
  - eexists. vm_compute. reflexivity.
  - by vm_compute.
Qed.

Lemma distance_not_checked_witness :
  ∃ j more,
    RunRepetition_job 0 1 "local_qasm_simulator" = Ok j
    ∧ submitted (GetData 1 "local_qasm_simulator" false example_world).2
      = submitted example_world ++ j :: more.
Proof.
  apply (distance_not_checked 1 "local_qasm_simulator").
  right. reflexivity.
Defined.

Lemma accumulate_conserves_mass_witness :
  total (viewFull example_views) = 1
  ∧ total (viewCode example_views) = 1
  ∧ total (viewSingle example_views) = 1.
Proof.
  apply (accumulate_conserves_mass 3 true example_raw example_views).
  - vm_compute. reflexivity.
  - apply Qc_is_canon. by vm_compute.
Defined.

(** ** The aggregation loop *)

Section Aggregation.

Implicit Types (es : list Qc) (c : cell).

Lemma aggregate_loop totalRuns es c :
  foldl (add_run totalRuns) c es
  = Cell (Mean c + Qc_sum es / Qc_of_Z totalRuns)
         (Var c + Qc_sum ((λ e, e * e) <$> es) / Qc_of_Z totalRuns).
Proof.
  revert c. induction es as [|e es IH]; intros c.
  - simpl. rewrite Qc_sum_nil. destruct c as [m v]. simpl.
    f_equal; unfold Qcdiv; ring.
  - cbn [foldl]. rewrite IH, fmap_cons, !Qc_sum_cons. simpl.
    f_equal; unfold Qcdiv; ring.
Qed.

(** C8.  For the error values [e_1 .. e_n] of the [n = totalRuns] runs
    of one code distance, one view and one encoded bit, the finished mean
    accumulator is the arithmetic mean [sum(e_i) / n], the finished
    variance accumulator is [mean(e_i^2) - mean(e_i)^2], and both are the
    same for every order of the runs. *)
Theorem aggregate_mean_variance totalRuns es :
  totalRuns = Z.of_nat (length es) →
  (0 < totalRuns)%Z →
  let n := Qc_of_Z (Z.of_nat (length es)) in
  let mean := Qc_sum es / n in
  let mean_of_squares := Qc_sum ((λ e, e * e) <$> es) / n in
  Mean (aggregate totalRuns es) = mean
  ∧ Var (aggregate totalRuns es) = mean_of_squares - mean * mean
  ∧ ∀ es', es' ≡ₚ es → aggregate totalRuns es' = aggregate totalRuns es.
Proof.
  intros -> _ n mean mean_of_squares. subst n mean mean_of_squares.
  unfold aggregate. rewrite aggregate_loop. simpl. repeat split.
  - ring.
  - ring.
  - intros es' Hperm. rewrite aggregate_loop. simpl.
    by rewrite (Qc_sum_perm es' es), (Qc_sum_perm (_ <$> es') (_ <$> es))
      by (done || by apply fmap_Permutation).
Qed.

End Aggregation.

Lemma aggregate_mean_variance_witness :
  Mean (aggregate 2 [Q2Qc 0.5; Q2Qc 0.25])
  = Qc_sum [Q2Qc 0.5; Q2Qc 0.25] / Qc_of_Z (Z.of_nat 2)
  ∧ Var (aggregate 2 [Q2Qc 0.5; Q2Qc 0.25])
    = Qc_sum ((λ e, e * e) <$> [Q2Qc 0.5; Q2Qc 0.25]) / Qc_of_Z (Z.of_nat 2)
      - Qc_sum [Q2Qc 0.5; Q2Qc 0.25] / Qc_of_Z (Z.of_nat 2)
        * (Qc_sum [Q2Qc 0.5; Q2Qc 0.25] / Qc_of_Z (Z.of_nat 2))
  ∧ ∀ es', es' ≡ₚ [Q2Qc 0.5; Q2Qc 0.25] →
      aggregate 2 es' = aggregate 2 [Q2Qc 0.5; Q2Qc 0.25].
Proof.
  apply (aggregate_mean_variance 2 [Q2Qc 0.5; Q2Qc 0.25]).
  - reflexivity.
  - lia.
Defined.

(** ** The remapping of raw outcome strings succeeds on well-formed keys *)

Section Remap.

Lemma string_length_app (s1 s2 : string) :
  String.length (s1 +:+ s2) = (String.length s1 + String.length s2)%nat.
Proof. induction s1 as [|c s1 IH]; simpl; [done|]. by rewrite IH. Qed.

Lemma length_str_push s c :
  Z.of_nat (String.length (str_push s c)) = (Z.of_nat (String.length s) + 1)%Z.
Proof. unfold str_push. rewrite string_length_app. simpl. lia. Qed.

Lemma string_get_lt (s : string) (n : nat) :
  (n < String.length s)%nat → ∃ c, String.get n s = Some c.
Proof.
  revert n. induction s as [|c s IH]; intros n; simpl; [lia|].
  destruct n as [|n]; [by eexists|]. intros Hn. apply IH. lia.
Qed.

Lemma str_index_ok s i :
  (0 ≤ i < Z.of_nat (String.length s))%Z → ∃ c, str_index s i = Ok c.
Proof.
  intros Hi. unfold str_index.
  rewrite (proj2 (Z.ltb_ge i 0)) by lia.
  rewrite (proj2 (Z.leb_le 0 i)), (proj2 (Z.ltb_lt i _)) by lia. simpl.
  destruct (string_get_lt s (Z.to_nat i)) as [c ->]; [lia|]. by exists c.
Qed.

Lemma remap_full_loop d simulator stringRaw l stringFull :
  let bitNum := (Z.of_nat (String.length stringRaw) - 1)%Z in
  NoDup l →
  (∀ codeQubit offset, codeQubit ∈ l → (offset = 0 ∨ offset = 1)%Z →
     (0 ≤ bitNum - GetAddress codeQubit offset simulator
      < Z.of_nat (String.length stringRaw))%Z) →
  ∃ result,
    for_each (stringFull_body d simulator stringRaw bitNum) l stringFull
    = Ok result
    ∧ Z.of_nat (String.length result)
      = (Z.of_nat (String.length stringFull) + 2 * Z.of_nat (length l)
         - (if decide ((d - 1)%Z ∈ l) then 1 else 0))%Z.
Proof.
  intros bitNum Hnodup. revert stringFull.
  induction Hnodup as [|codeQubit l Hnotin Hnodup IH]; intros stringFull Hfit.
  - exists stringFull. split; [done|].
    rewrite decide_False by apply not_elem_of_nil. simpl. lia.
  - cbn [for_each]. unfold stringFull_body at 1.
    destruct (str_index_ok stringRaw (bitNum - GetAddress codeQubit 0 simulator))
      as [c ->]; [apply Hfit; [apply list_elem_of_here|lia]|].
    cbn [bind].
    assert (∀ cq off, cq ∈ l → (off = 0 ∨ off = 1)%Z →
              (0 ≤ bitNum - GetAddress cq off simulator
               < Z.of_nat (String.length stringRaw))%Z) as Hfit'.
    { intros cq off Hin. by apply Hfit, list_elem_of_further. }
    case_bool_decide as Hlast.
    + destruct (str_index_ok stringRaw
                  (bitNum - GetAddress codeQubit 1 simulator))
        as [a ->]; [apply Hfit; [apply list_elem_of_here|lia]|].
      cbn [bind].
      destruct (IH (str_push (str_push stringFull c) a) Hfit')
        as (result & -> & Hlen).
      exists result. split; [done|]. rewrite Hlen, !length_str_push.
      cbn [length]. destruct (decide ((d - 1)%Z ∈ l)) as [Hin|Hin].
      * rewrite decide_True by by apply list_elem_of_further. lia.
      * rewrite decide_False; [lia|]. by intros [?|?]%elem_of_cons.
    + subst codeQubit. cbn [bind].
      destruct (IH (str_push stringFull c) Hfit') as (result & -> & Hlen).
      exists result. split; [done|]. rewrite Hlen, !length_str_push.
      cbn [length]. rewrite (decide_False _ _ Hnotin).
      rewrite decide_True by apply list_elem_of_here. lia.
Qed.

Lemma remap_code_loop stringFull l stringCode :
  (∀ n, n ∈ l → (0 ≤ 2 * n < Z.of_nat (String.length stringFull))%Z) →
  ∃ result, for_each (stringCode_body stringFull) l stringCode = Ok result.
Proof.
  revert stringCode. induction l as [|n l IH]; intros stringCode Hfit.
  - by exists stringCode.
  - cbn [for_each]. unfold stringCode_body at 1.
    destruct (str_index_ok stringFull (2 * n)) as [c ->];
      [apply Hfit, list_elem_of_here|].
    cbn [bind]. apply IH. intros m Hm. by apply Hfit, list_elem_of_further.
Qed.

Lemma address_fits d simulator stringRaw codeQubit offset :
  well_formed_key d simulator stringRaw →
  (simulator = true → (0 ≤ codeQubit < d)%Z ∧ (offset = 0 ∨ offset = 1)%Z) →
  (0 ≤ Z.of_nat (String.length stringRaw) - 1
       - GetAddress codeQubit offset simulator
   < Z.of_nat (String.length stringRaw))%Z.
Proof.
  unfold well_formed_key, GetAddress. destruct simulator.
  - intros [Hd Hlen] Hcq. destruct (Hcq eq_refl) as [Hc Hoff]. lia.
  - intros Hlen _.
    pose proof (Z.mod_pos_bound (5 - 2 * codeQubit - offset) 16). lia.
Qed.

Lemma remap_ok d simulator stringRaw :
  well_formed_key d simulator stringRaw →
  ∃ strings, remap d simulator stringRaw = Ok strings.
Proof.
  intros Hwf. unfold remap. cbv zeta.
  destruct (remap_full_loop d simulator stringRaw (range d) "")
    as (stringFull & -> & Hlen).
  { apply NoDup_seqZ. }
  { intros codeQubit offset Hin%elem_of_seqZ Hoff.
    apply (address_fits d); [done|]. intros _. split; [lia|done]. }
  cbn [bind].
  destruct (remap_code_loop stringFull (range d) "") as [stringCode ->].
  { intros n Hn%elem_of_seqZ. rewrite Hlen. unfold range.
    rewrite length_seqZ, decide_True by (apply elem_of_seqZ; lia).
    simpl. lia. }
  cbn [bind].
  destruct (str_index_ok stringRaw
              (Z.of_nat (String.length stringRaw) - 1
               - GetAddress (d - 1) 1 simulator)) as [c ->]; [|by eexists].
  apply (address_fits d); [done|].
  intros ->. destruct Hwf as [Hd _]. split; [lia|by right].
Qed.

Lemma GetData_body_ok guard d simulator acc key q :
  well_formed_key d simulator key →
  ∃ acc', GetData_body guard d simulator acc (key, Num q) = Ok acc'.
Proof.
  intros Hwf. unfold GetData_body. cbn [fst snd].
  destruct (guard (Num q)); [|by eexists].
  destruct (remap_ok d simulator key Hwf) as [[[sf sc] ss] ->].
  cbn [bind as_number]. by eexists.
Qed.

(** On a raw distribution all of whose keys have one character per qubit
    of the register, the accumulation loop of [GetData] runs to the end
    and conserves the total. *)
Lemma accumulate_returns d simulator (table : gmap string Qc) :
  (∀ key v, table !! key = Some v → well_formed_key d simulator key) →
  ∃ result,
    accumulate d simulator (Num <$> table) = Ok result
    ∧ total (viewFull result) = total table
    ∧ total (viewCode result) = total table
    ∧ total (viewSingle result) = total table.
Proof.
  intros Hwf.
  assert (∃ result, accumulate d simulator (Num <$> table) = Ok result)
    as [result Hres].
  { unfold accumulate, accumulate_with. rewrite map_to_list_fmap.
    assert (Forall (λ e : string * Qc, well_formed_key d simulator e.1)
              (map_to_list table)) as Hall.
    { apply list.Forall_forall. intros [key v] Hin%elem_of_map_to_list.
      by eapply Hwf. }
    generalize (Views ∅ ∅ ∅).
    induction Hall as [|[key v] l Hkey _ IH]; intros acc; [by eexists|].
    rewrite fmap_cons. cbn [for_each prod_map fst snd id].
    destruct (GetData_body_ok is_not_str d simulator acc key v Hkey)
      as [acc' ->].
    cbn [bind]. apply IH. }
  exists result. split; [done|]. by eapply accumulate_totals.
Qed.

End Remap.

(** * Further properties of the code *)

(** ** The layout of the qubits *)

Section Layout.

(** X1.  The roles of a code of distance [d] (code qubit [c] at
    [GetAddress(c, 0)], the qubit after it at [GetAddress(c, 1)]) sit at
    pairwise distinct addresses of the register: on a simulator for every
    [d], on the device (where addresses are taken modulo 16) for [d] up
    to 8. *)
Theorem GetAddress_injective d simulator c1 o1 c2 o2 :
  (simulator = false → (d ≤ 8)%Z) →
  (0 ≤ c1 < d)%Z → (0 ≤ c2 < d)%Z →
  (o1 = 0 ∨ o1 = 1)%Z → (o2 = 0 ∨ o2 = 1)%Z →
  c1 ≠ c2 ∨ o1 ≠ o2 →
  GetAddress c1 o1 simulator ≠ GetAddress c2 o2 simulator.
Proof.
  unfold GetAddress. intros Hd Hc1 Hc2 Ho1 Ho2 Hne.
  destruct simulator.
  - lia.
  - specialize (Hd eq_refl). intros Heq.
    assert (5 - 2 * c1 - o1 = 5 - 2 * c2 - o2)%Z; [|lia].
    Z.to_euclidean_division_equations. lia.
Qed.

(** On the device the bound is sharp: with nine code qubits the last one
    would share the address of the first. *)
Lemma GetAddress_wraps : GetAddress 8 0 false = GetAddress 0 0 false.
Proof. reflexivity. Qed.

End Layout.

Lemma GetAddress_injective_witness :
  GetAddress 7 1 false ≠ GetAddress 0 0 false.
Proof.
  apply (GetAddress_injective 8 false 7 1 0 0); intros; lia.
Defined.

(** ** The CNOT gates of the circuit *)

Section Cnot.

Lemma AddCnot_device_allowed script control target script' :
  AddCnot script control target false = Ok script' →
  Forall cnot_allowed script →
  Forall cnot_allowed script'.
Proof.
  unfold AddCnot, coupling_map_at. intros Hadd Hscript.
  destruct (coupling_map !! control) as [direct|] eqn:Hdirect;
    cbn [bind] in Hadd; [|done].
  rewrite orb_false_r in Hadd. case_bool_decide as Hin.
  - injection Hadd as <-. apply Forall_app. split; [done|].
    repeat constructor. by exists direct.
  - destruct (coupling_map !! target) as [reversed|] eqn:Hreversed;
      cbn [bind] in Hadd; [|done].
    case_bool_decide as Hrev; injection Hadd as <-; [|done].
    apply Forall_app. split; [done|].
    repeat constructor. by exists reversed.
Qed.

Lemma AddCnot_loop_device_allowed offset l script script' :
  for_each (λ script codeQubit,
              AddCnot script (GetAddress codeQubit 0 false)
                (GetAddress codeQubit offset false) false) l script
  = Ok script' →
  Forall cnot_allowed script →
  Forall cnot_allowed script'.
Proof.
  revert script. induction l as [|codeQubit l IH]; intros script.
  - simpl. by intros [= <-].
  - cbn [for_each].
    destruct (AddCnot script _ _ false) as [script1| |] eqn:Hadd;
      cbn [bind]; [|done..].
    intros Hloop Hscript. apply (IH script1 Hloop).
    by eapply AddCnot_device_allowed.
Qed.

Lemma Forall_cnot_allowed_other l :
  Forall (λ g, is_cx g = false) l → Forall cnot_allowed l.
Proof.
  intros Hl. eapply list.Forall_impl; [exact Hl|]. by intros [].
Qed.

(** X2.  On the device, whatever the distance and the stored bit, every
    CNOT of the circuit that [RunRepetition] builds is one that
    [coupling_map] lists: where only the opposite direction is available
    [AddCnot] conjugates it with Hadamards, and where neither is it adds
    nothing. *)
Theorem RunRepetition_device_cnots_allowed bit d j :
  RunRepetition_job bit d "ibmqx3" = Ok j →
  Forall cnot_allowed (job_circuit j).
Proof.
  unfold RunRepetition_job.
  rewrite bool_decide_eq_false_2 by (by intros Hne).
  unfold RunRepetition_script, AddError.
  set (start := (if bool_decide (bit = 1%nat) then _ else _) ++ [gate_barrier]).
  assert (Forall cnot_allowed start) as Hstart.
  { subst start. apply Forall_cnot_allowed_other.
    apply Forall_app. split; [|by repeat constructor].
    case_bool_decide; [|constructor].
    rewrite !Forall_app. split; [constructor|split].
    - by apply Forall_fmap, list.Forall_forall.
    - by repeat constructor. }
  destruct (for_each _ (range (d - 1)) start) as [script1| |] eqn:Hloop1;
    cbn [bind]; [|done..].
  destruct (for_each _ (range3 1 d 1) _) as [script2| |] eqn:Hloop2;
    cbn [bind]; [|done..].
  intros [= <-]. cbn [job_circuit].
  rewrite !Forall_app. split; [split|].
  - apply (AddCnot_loop_device_allowed _ _ _ _ Hloop2).
    apply Forall_app. split; [|by repeat constructor].
    by apply (AddCnot_loop_device_allowed _ _ _ _ Hloop1).
  - by repeat constructor.
  - apply Forall_cnot_allowed_other. by repeat constructor.
Qed.

(** X3.  On the device, for every distance from 1 to 8 the chain of code
    and ancilla qubits follows the coupling graph: each of the [2*(d-1)]
    pairs of neighbours is entangled by one CNOT, so the branch of
    [AddCnot] that gives up is never taken. *)
Theorem RunRepetition_device_entangles_chain bit d :
  (1 ≤ d ≤ 8)%Z →
  ∃ j, RunRepetition_job bit d "ibmqx3" = Ok j
       ∧ Z.of_nat (length (filter (λ g, is_cx g = true) (job_circuit j)))
         = (2 * (d - 1))%Z.
Proof.
  intros Hd.
  assert (d ∈ seqZ 1 8) as Hin by (apply elem_of_seqZ; lia).
  vm_compute in Hin.
  repeat (apply elem_of_cons in Hin as [->|Hin];
          [destruct bit as [|[|bit]]; eexists; split; by vm_compute|]).
  by apply elem_of_nil in Hin.
Qed.

Lemma AddCnot_simulator script control target :
  AddCnot script control target true
  = match coupling_map !! control with
    | Some _ => Ok (script ++ [gate_cx control target])
    | None => Raise KeyError
    end.
Proof.
  unfold AddCnot, coupling_map_at.
  destruct (coupling_map !! control); cbn [bind]; [|done].
  by rewrite orb_true_r.
Qed.

Lemma AddCnot_loop_simulator offset l script :
  for_each (λ script codeQubit,
              AddCnot script (GetAddress codeQubit 0 true)
                (GetAddress codeQubit offset true) true) l script
  = if decide (Forall (λ codeQubit,
                         is_Some (coupling_map !! GetAddress codeQubit 0 true)) l)
    then Ok (script
               ++ ((λ codeQubit,
                      gate_cx (GetAddress codeQubit 0 true)
                        (GetAddress codeQubit offset true)) <$> l))
    else Raise KeyError.
Proof.
  revert script. induction l as [|codeQubit l IH]; intros script.
  - cbn [for_each]. rewrite fmap_nil, app_nil_r.
    case_decide as Hnil; [done|]. destruct Hnil. constructor.
  - cbn [for_each]. rewrite AddCnot_simulator.
    destruct (coupling_map !! GetAddress codeQubit 0 true) as [direct|]
      eqn:Hdirect; cbn [bind].
    + rewrite IH.
      destruct (decide (Forall _ l)) as [Hl|Hl].
      * rewrite decide_True by (constructor; [by rewrite Hdirect|done]).
        by rewrite fmap_cons, <-app_assoc.
      * rewrite decide_False; [done|]. by inversion 1.
    + rewrite decide_False; [done|].
      inversion 1 as [|? ? Hsome _]. rewrite Hdirect in Hsome.
      by destruct Hsome.
Qed.

Lemma RunRepetition_script_simulator_large bit d num :
  (9 ≤ d)%Z → RunRepetition_script bit d true num = Raise KeyError.
Proof.
  intros Hd. unfold RunRepetition_script.
  rewrite !AddCnot_loop_simulator.
  destruct (decide (Forall _ (range (d - 1)))); cbn [bind]; [|done].
  rewrite AddCnot_loop_simulator.
  case_decide as Hall; [|done].
  rewrite list.Forall_forall in Hall.
  destruct (Hall 8%Z) as [direct Hdirect]; [|done].
  unfold range3. apply list_elem_of_fmap. exists 7%Z. split; [done|].
  apply elem_of_seqZ. rewrite Z.div_1_r. lia.
Qed.

(** X4.  On a simulator [AddCnot] still looks its control qubit up in
    [coupling_map], which knows the addresses 0 to 15 only: for every
    distance from 9 on, [RunRepetition] raises [KeyError] while it builds
    the circuit, and no job is submitted. *)
Theorem RunRepetition_simulator_distance_limit bit d device w :
  device ≠ "ibmqx3"%string →
  (9 ≤ d)%Z →
  RunRepetition bit d device w = (Raise KeyError, w).
Proof.
  intros Hdev Hd. rewrite RunRepetition_unfold. unfold RunRepetition_job.
  rewrite bool_decide_eq_true_2 by done.
  by rewrite RunRepetition_script_simulator_large.
Qed.

(** X5.  On a simulator, for every distance from 1 to 8 [RunRepetition]
    builds a circuit on [2*d] qubits, all of whose addresses lie in the
    register, with one CNOT for each of the [2*(d-1)] pairs of
    neighbours. *)
Theorem RunRepetition_simulator_circuit bit d device :
  device ≠ "ibmqx3"%string →
  (1 ≤ d ≤ 8)%Z →
  ∃ j, RunRepetition_job bit d device = Ok j
       ∧ job_qubits j = (2 * d)%Z
       ∧ Forall (gate_in_register (2 * d)) (job_circuit j)
       ∧ Z.of_nat (length (filter (λ g, is_cx g = true) (job_circuit j)))
         = (2 * (d - 1))%Z.
Proof.
  intros Hdev Hd. unfold RunRepetition_job.
  rewrite bool_decide_eq_true_2 by done.
  assert (d ∈ seqZ 1 8) as Hin by (apply elem_of_seqZ; lia).
  vm_compute in Hin.
  repeat (apply elem_of_cons in Hin as [->|Hin];
          [destruct bit as [|[|bit]]; eexists;
           (split; [by vm_compute|]); (split; [done|]);
           (split; [in_register|by vm_compute])|]).
  by apply elem_of_nil in Hin.
Qed.

End Cnot.

Lemma RunRepetition_device_cnots_allowed_witness :
  Forall cnot_allowed
    (job_circuit
       (match RunRepetition_job 1 3 "ibmqx3" with
        | Ok j => j
        | _ => Job [] 0 "" 0
        end)).
Proof.
  apply (RunRepetition_device_cnots_allowed 1 3).
  vm_compute. reflexivity.
Defined.

Lemma RunRepetition_device_entangles_chain_witness :
  ∃ j, RunRepetition_job 1 8 "ibmqx3" = Ok j
       ∧ Z.of_nat (length (filter (λ g, is_cx g = true) (job_circuit j)))
         = (2 * (8 - 1))%Z.
Proof.
  apply (RunRepetition_device_entangles_chain 1 8). lia.
Defined.

Lemma RunRepetition_simulator_distance_limit_witness :
  RunRepetition 0 9 "local_qasm_simulator" example_world
  = (Raise KeyError, example_world).
Proof.
  apply RunRepetition_simulator_distance_limit; [discriminate|lia].
Defined.

Lemma RunRepetition_simulator_circuit_witness :
  ∃ j, RunRepetition_job 1 3 "local_qasm_simulator" = Ok j
       ∧ job_qubits j = (2 * 3)%Z
       ∧ Forall (gate_in_register (2 * 3)) (job_circuit j)
       ∧ Z.of_nat (length (filter (λ g, is_cx g = true) (job_circuit j)))
         = (2 * (3 - 1))%Z.
Proof.
  apply RunRepetition_simulator_circuit; [discriminate|lia].
Defined.

(** ** The simulated errors *)

Section Errors.

Lemma elem_of_range3_2 start stop a :
  a ∈ range3 start stop 2 ↔ (start ≤ a < stop)%Z ∧ ((a - start) mod 2 = 0)%Z.
Proof.
  unfold range3. rewrite list_elem_of_fmap. split.
  - intros (i & -> & Hi%elem_of_seqZ).
    split; Z.to_euclidean_division_equations; lia.
  - intros [Ha Hpar]. exists ((a - start) / 2)%Z. split.
    + Z.to_euclidean_division_equations; lia.
    + apply elem_of_seqZ. Z.to_euclidean_division_equations; lia.
Qed.

Lemma NoDup_range3_2 start stop : NoDup (range3 start stop 2).
Proof.
  unfold range3. apply NoDup_fmap_2; [|apply NoDup_seqZ].
  intros i j Hij. lia.
Qed.

(** X6.  On a simulator [AddError] appends exactly one rotation for each
    qubit of the register, followed by a barrier: by 0.05 pi for an ancilla
    (odd address before the last), and for a code qubit or the single qubit
    by 0.05 pi when 0 is stored and twice as much when 1 is stored. *)
Theorem AddError_one_rotation_per_qubit script num bit :
  (1 ≤ num)%Z →
  ∃ rotations,
    AddError script num true bit = script ++ rotations ++ [gate_barrier]
    ∧ rotations ≡ₚ (λ address, gate_u3 (error_fraction num bit address) address)
                     <$> seqZ 0 num.
Proof.
  intros Hnum. unfold AddError.
  set (fracAncilla := Q2Qc 0.05).
  set (fracCode := if bool_decide (bit = 1%nat) then fracAncilla * 2
                   else fracAncilla).
  exists ((gate_u3 fracCode <$> range3 0 (num - 1) 2)
          ++ (gate_u3 fracAncilla <$> range3 1 (num - 1) 2)
          ++ [gate_u3 fracCode (num - 1)]).
  split; [by rewrite <-!app_assoc|].
  apply NoDup_Permutation.
  - apply list.NoDup_app. split; [|split].
    + apply NoDup_fmap_2; [by intros a b [= ->]|apply NoDup_range3_2].
    + intros g (a & -> & [Ha Hpar]%elem_of_range3_2)%list_elem_of_fmap.
      intros [Hin|Hin]%elem_of_app.
      * apply list_elem_of_fmap in Hin as (b & [= _ ->] & [Hb Hodd]%elem_of_range3_2).
        Z.to_euclidean_division_equations; lia.
      * apply list_elem_of_singleton in Hin as [= ->]. lia.
    + apply list.NoDup_app. split; [|split].
      * apply NoDup_fmap_2; [by intros a b [= ->]|apply NoDup_range3_2].
      * intros g (a & -> & [Ha Hpar]%elem_of_range3_2)%list_elem_of_fmap.
        intros [= _ ->]%list_elem_of_singleton. lia.
      * apply list.NoDup_singleton.
  - apply NoDup_fmap_2; [by intros a b [= _ ->]|apply NoDup_seqZ].
  - intros g. rewrite !elem_of_app, !list_elem_of_fmap, list_elem_of_singleton.
    unfold error_fraction. fold fracAncilla. fold fracCode. split.
    + intros [(a & -> & [Ha Hpar]%elem_of_range3_2)
             |[(a & -> & [Ha Hpar]%elem_of_range3_2)| ->]].
      * exists a. split; [|apply elem_of_seqZ; lia].
        rewrite bool_decide_eq_true_2; [done|].
        right. by rewrite Z.sub_0_r in Hpar.
      * exists a. split; [|apply elem_of_seqZ; lia].
        rewrite bool_decide_eq_false_2; [done|].
        intros [?|?]; Z.to_euclidean_division_equations; lia.
      * exists (num - 1)%Z. split; [|apply elem_of_seqZ; lia].
        rewrite bool_decide_eq_true_2; [done|]. by left.
    + intros (a & -> & Ha%elem_of_seqZ).
      case_bool_decide as Hrole.
      * destruct (decide (a = (num - 1)%Z)) as [->|Hlast]; [by right; right|].
        left. exists a. split; [done|]. apply elem_of_range3_2.
        destruct Hrole as [?|Hpar]; [done|]. rewrite Z.sub_0_r. lia.
      * right. left. exists a. split; [done|]. apply elem_of_range3_2.
        split; Z.to_euclidean_division_equations; lia.
Qed.

End Errors.

Lemma AddError_one_rotation_per_qubit_witness :
  ∃ rotations,
    AddError [] 6 true 1 = [] ++ rotations ++ [gate_barrier]
    ∧ rotations ≡ₚ (λ address, gate_u3 (error_fraction 6 1 address) address)
                     <$> seqZ 0 6.
Proof.
  apply (AddError_one_rotation_per_qubit [] 6 1). lia.
Defined.

(** ** What the derived strings hold *)

Section RemapContent.

Lemma for_each_app {A S} (body : S → A → res S) l1 l2 s :
  for_each body (l1 ++ l2) s = Py.bind (for_each body l1 s) (for_each body l2).
Proof.
  revert s. induction l1 as [|x l1 IH]; intros s; [done|].
  cbn [for_each app]. destruct (body s x); cbn [bind]; [apply IH|done..].
Qed.

Lemma str_index_push_old s c i :
  (0 ≤ i < Z.of_nat (String.length s))%Z →
  str_index (str_push s c) i = str_index s i.
Proof.
  intros Hi. unfold str_index. rewrite length_str_push.
  rewrite (proj2 (Z.ltb_ge i 0)) by lia.
  rewrite (proj2 (Z.leb_le 0 i)) by lia.
  rewrite !(proj2 (Z.ltb_lt i _)) by lia. cbn [andb].
  unfold str_push. by rewrite <-append_correct1 by lia.
Qed.

Lemma str_index_push_new s c :
  str_index (str_push s c) (Z.of_nat (String.length s)) = Ok c.
Proof.
  unfold str_index. rewrite length_str_push.
  rewrite (proj2 (Z.ltb_ge _ 0)) by lia.
  rewrite (proj2 (Z.leb_le 0 _)), (proj2 (Z.ltb_lt _ _)) by lia. cbn [andb].
  rewrite Nat2Z.id. unfold str_push.
  pose proof (append_correct2 s (String c EmptyString) 0) as Hget.
  simpl in Hget. by rewrite <-Hget.
Qed.

Lemma stringFull_loop_content d simulator stringRaw bitNum (k : nat) stringFull :
  (Z.of_nat k ≤ d)%Z →
  for_each (stringFull_body d simulator stringRaw bitNum)
    (range (Z.of_nat k)) "" = Ok stringFull →
  Z.of_nat (String.length stringFull)
  = (2 * Z.of_nat k - (if decide (Z.of_nat k = d ∧ (1 ≤ d)%Z) then 1 else 0))%Z
  ∧ (∀ n, (0 ≤ n < Z.of_nat k)%Z →
       str_index stringFull (2 * n)
       = str_index stringRaw (bitNum - GetAddress n 0 simulator))
  ∧ (∀ n, (0 ≤ n < Z.of_nat k)%Z → n ≠ (d - 1)%Z →
       str_index stringFull (2 * n + 1)
       = str_index stringRaw (bitNum - GetAddress n 1 simulator)).
Proof.
  unfold range. revert stringFull.
  induction k as [|k IH]; intros stringFull Hk.
  - simpl. intros [= <-]. rewrite decide_False by lia.
    split; [done|]. split; intros; lia.
  - rewrite seqZ_S, for_each_app, Z.add_0_l.
    destruct (for_each _ (seqZ 0 (Z.of_nat k)) "") as [before| |] eqn:Hbefore;
      cbn [bind for_each]; [|done..].
    destruct (IH before) as (Hlen & Hcode & Hanc); [lia|done|].
    rewrite decide_False in Hlen by lia.
    unfold stringFull_body.
    destruct (str_index stringRaw (bitNum - GetAddress (Z.of_nat k) 0 simulator))
      as [c| |] eqn:Hc; cbn [bind]; [|done..].
    case_bool_decide as Hlast.
    + destruct (str_index stringRaw
                  (bitNum - GetAddress (Z.of_nat k) 1 simulator))
        as [a| |] eqn:Ha; cbn [bind]; [|done..].
      intros [= <-]. rewrite !length_str_push, decide_False by lia.
      split; [lia|]. split.
      * intros n Hn. destruct (decide (n = Z.of_nat k)) as [->|Hne].
        -- rewrite str_index_push_old by (rewrite length_str_push; lia).
           replace (2 * Z.of_nat k)%Z with (Z.of_nat (String.length before))
             by lia.
           by rewrite str_index_push_new.
        -- rewrite !str_index_push_old by (rewrite ?length_str_push; lia).
           apply Hcode. lia.
      * intros n Hn Hnl. destruct (decide (n = Z.of_nat k)) as [->|Hne].
        -- replace (2 * Z.of_nat k + 1)%Z
             with (Z.of_nat (String.length (str_push before c)))
             by (rewrite length_str_push; lia).
           by rewrite str_index_push_new.
        -- rewrite !str_index_push_old by (rewrite ?length_str_push; lia).
           apply Hanc; [lia|done].
    + intros [= <-]. rewrite !length_str_push, decide_True by lia.
      split; [lia|]. split.
      * intros n Hn. destruct (decide (n = Z.of_nat k)) as [->|Hne].
        -- replace (2 * Z.of_nat k)%Z with (Z.of_nat (String.length before))
             by lia.
           by rewrite str_index_push_new.
        -- rewrite !str_index_push_old by lia. apply Hcode. lia.
      * intros n Hn Hnl.
        rewrite !str_index_push_old by lia. apply Hanc; [lia|done].
Qed.

Lemma stringCode_loop_content stringFull (k : nat) stringCode :
  for_each (stringCode_body stringFull) (range (Z.of_nat k)) "" = Ok stringCode →
  Z.of_nat (String.length stringCode) = Z.of_nat k
  ∧ ∀ n, (0 ≤ n < Z.of_nat k)%Z →
      str_index stringCode n = str_index stringFull (2 * n).
Proof.
  unfold range. revert stringCode.
  induction k as [|k IH]; intros stringCode.
  - simpl. intros [= <-]. split; [done|]. intros; lia.
  - rewrite seqZ_S, for_each_app, Z.add_0_l.
    destruct (for_each _ (seqZ 0 (Z.of_nat k)) "") as [before| |] eqn:Hbefore;
      cbn [bind for_each]; [|done..].
    destruct (IH before eq_refl) as [Hlen Hcode].
    unfold stringCode_body.
    destruct (str_index stringFull (2 * Z.of_nat k)) as [c| |] eqn:Hc;
      cbn [bind]; [|done..].
    intros [= <-]. rewrite length_str_push. split; [lia|].
    intros n Hn. destruct (decide (n = Z.of_nat k)) as [->|Hne].
    + rewrite <-Hlen at 1. by rewrite str_index_push_new.
    + rewrite str_index_push_old by lia. apply Hcode. lia.
Qed.

(** X7.  For a raw outcome with one character per qubit and a distance
    of at least 1, the loop of [GetData] derives a full string of [2*d-1]
    characters and a code string of [d] characters: character [n] of the
    code string and character [2*n] of the full string are the measured
    value of code qubit [n], character [2*n+1] of the full string is that
    of the ancilla after it, and the single string is the value of the
    qubit after the last code qubit. *)
Theorem remap_reads_each_role d simulator stringRaw :
  (1 ≤ d)%Z →
  well_formed_key d simulator stringRaw →
  let bitNum := (Z.of_nat (String.length stringRaw) - 1)%Z in
  ∃ stringFull stringCode single,
    remap d simulator stringRaw
    = Ok (stringFull, stringCode, String single EmptyString)
    ∧ Z.of_nat (String.length stringFull) = (2 * d - 1)%Z
    ∧ Z.of_nat (String.length stringCode) = d
    ∧ (∀ n, (0 ≤ n < d)%Z →
         str_index stringCode n
         = str_index stringRaw (bitNum - GetAddress n 0 simulator)
         ∧ str_index stringFull (2 * n)
           = str_index stringRaw (bitNum - GetAddress n 0 simulator))
    ∧ (∀ n, (0 ≤ n < d - 1)%Z →
         str_index stringFull (2 * n + 1)
         = str_index stringRaw (bitNum - GetAddress n 1 simulator))
    ∧ str_index stringRaw (bitNum - GetAddress (d - 1) 1 simulator) = Ok single.
Proof.
  intros Hd Hwf bitNum.
  destruct (remap_ok d simulator stringRaw Hwf) as [[[stringFull stringCode] ss] Hremap].
  revert Hremap. unfold remap. cbv zeta. fold bitNum.
  destruct (for_each _ (range d) "") as [sf| |] eqn:Hfull; cbn [bind]; [|done..].
  destruct (for_each (stringCode_body sf) (range d) "") as [sc| |] eqn:Hcode;
    cbn [bind]; [|done..].
  destruct (str_index stringRaw (bitNum - GetAddress (d - 1) 1 simulator))
    as [single| |] eqn:Hsingle; cbn [bind]; [|done..].
  intros [= <- <- <-]. exists sf, sc, single.
  rewrite <-(Z2Nat.id d) in Hfull, Hcode by lia.
  apply stringFull_loop_content in Hfull as (Hlen & Hfc & Hfa); [|lia].
  apply stringCode_loop_content in Hcode as (Hlenc & Hcc).
  rewrite Z2Nat.id in * by lia. rewrite decide_True in Hlen by done.
  repeat split; try done.
  - rewrite Hcc by done. by apply Hfc.
  - by apply Hfc.
  - intros n Hn. apply Hfa; lia.
Qed.

End RemapContent.

Lemma remap_reads_each_role_witness :
  ∃ stringFull stringCode single,
    remap 3 true "010011" = Ok (stringFull, stringCode, String single EmptyString)
    ∧ Z.of_nat (String.length stringFull) = (2 * 3 - 1)%Z
    ∧ Z.of_nat (String.length stringCode) = 3%Z
    ∧ (∀ n, (0 ≤ n < 3)%Z →
         str_index stringCode n
         = str_index "010011" (Z.of_nat 6 - 1 - GetAddress n 0 true)
         ∧ str_index stringFull (2 * n)
           = str_index "010011" (Z.of_nat 6 - 1 - GetAddress n 0 true))
    ∧ (∀ n, (0 ≤ n < 3 - 1)%Z →
         str_index stringFull (2 * n + 1)
         = str_index "010011" (Z.of_nat 6 - 1 - GetAddress n 1 true))
    ∧ str_index "010011" (Z.of_nat 6 - 1 - GetAddress (3 - 1) 1 true) = Ok single.
Proof.
  apply (remap_reads_each_role 3 true "010011"); [lia|].
  split; [lia|reflexivity].
Defined.

(** ** Accumulating probabilities in any order *)

Section Order.

Implicit Types (results : gmap string Qc) (acc : views).

Lemma AddProbToResults_swap p1 key1 p2 key2 results :
  AddProbToResults p1 key1 (AddProbToResults p2 key2 results)
  = AddProbToResults p2 key2 (AddProbToResults p1 key1 results).
Proof.
  rewrite !AddProbToResults_insert.
  destruct (decide (key1 = key2)) as [->|Hne].
  - rewrite !lookup_insert_eq, !insert_insert_eq. simpl. f_equal. ring.
  - rewrite !lookup_insert_ne by done. by apply insert_insert_ne.
Qed.

(** X8.  Two calls of [AddProbToResults] can be exchanged, and two calls
    on the same string add the sum of the two probabilities. *)
Theorem AddProbToResults_commutes p1 key1 p2 key2 results :
  AddProbToResults p1 key1 (AddProbToResults p2 key2 results)
  = AddProbToResults p2 key2 (AddProbToResults p1 key1 results)
  ∧ AddProbToResults p1 key1 (AddProbToResults p2 key1 results)
    = AddProbToResults (p2 + p1) key1 results.
Proof.
  split; [apply AddProbToResults_swap|].
  rewrite !AddProbToResults_insert.
  rewrite lookup_insert_eq, insert_insert_eq. simpl. f_equal. ring.
Qed.

Lemma nonneg_AddProbToResults prob key results :
  0 ≤ prob → nonneg results → nonneg (AddProbToResults prob key results).
Proof.
  intros Hprob Hres key' v. rewrite AddProbToResults_insert.
  destruct (decide (key = key')) as [<-|Hne].
  - rewrite lookup_insert_eq. intros [= <-].
    apply Qcplus_nonneg_nonneg; [|done].
    destruct (results !! key) as [old|] eqn:Hold; simpl; [by eapply Hres|done].
  - rewrite lookup_insert_ne by done. apply Hres.
Qed.

(** What one raw entry does to the three dictionaries does not depend on
    what they hold. *)
Lemma GetData_body_effect guard d simulator entry :
  (∀ acc, GetData_body guard d simulator acc entry = Ok acc)
  ∨ (∃ prob sf sc ss,
       entry.2 = Num prob
       ∧ ∀ acc, GetData_body guard d simulator acc entry
                = Ok (Views (AddProbToResults prob sf (viewFull acc))
                            (AddProbToResults prob sc (viewCode acc))
                            (AddProbToResults prob ss (viewSingle acc))))
  ∨ (∃ failure, (∀ acc', failure ≠ Ok acc')
                ∧ ∀ acc, GetData_body guard d simulator acc entry = failure).
Proof.
  unfold GetData_body. destruct (guard entry.2); [|by left].
  destruct (remap d simulator entry.1) as [[[sf sc] ss]| |]; cbn [bind].
  - destruct entry.2 as [prob|s|]; cbn [as_number bind].
    + right. left. by exists prob, sf, sc, ss.
    + right. right. by exists (Raise TypeError).
    + right. right. by exists (Raise TypeError).
  - right. right. by eexists (Raise _).
  - right. right. by exists Hang.
Qed.

Lemma GetData_body_swap guard d simulator x y acc result :
  Py.bind (GetData_body guard d simulator acc x)
    (λ acc', GetData_body guard d simulator acc' y) = Ok result →
  Py.bind (GetData_body guard d simulator acc y)
    (λ acc', GetData_body guard d simulator acc' x) = Ok result.
Proof.
  destruct (GetData_body_effect guard d simulator x)
    as [Hx|[(px & fx & cx & sx & _ & Hx)|(fx & Hfx & Hx)]];
    destruct (GetData_body_effect guard d simulator y)
      as [Hy|[(py & fy & cy & sy & _ & Hy)|(fy & Hfy & Hy)]];
    rewrite ?Hx, ?Hy; cbn [bind]; rewrite ?Hx, ?Hy; cbn [bind];
    first
      [ done
      | cbn [viewFull viewCode viewSingle]; intros [= <-];
        apply (f_equal Ok); f_equal; apply AddProbToResults_swap
      | destruct fy as [a| |]; [by destruct (Hfy a)|done..]
      | destruct fx as [a| |]; [by destruct (Hfx a)|done..] ].
Qed.

(** X9.  The loop of [GetData] over the raw entries gives the same three
    dictionaries in whatever order the entries are visited: if it
    completes for one order it completes, with the same result, for every
    other. *)
Theorem accumulate_order_independent guard d simulator l1 l2 acc result :
  l1 ≡ₚ l2 →
  for_each (GetData_body guard d simulator) l1 acc = Ok result →
  for_each (GetData_body guard d simulator) l2 acc = Ok result.
Proof.
  intros Hperm. revert acc result.
  induction Hperm as [|x l1 l2 _ IH|x y l|l1 l2 l3 _ IH1 _ IH2];
    intros acc result.
  - done.
  - cbn [for_each].
    destruct (GetData_body guard d simulator acc x); cbn [bind]; [apply IH|done..].
  - cbn [for_each].
    destruct (GetData_body guard d simulator acc y) as [a1| |] eqn:Hy;
      cbn [bind]; [|done..].
    destruct (GetData_body guard d simulator a1 x) as [a2| |] eqn:Hx;
      cbn [bind]; [|done..].
    intros Hrest.
    assert (Py.bind (GetData_body guard d simulator acc x)
              (λ acc', GetData_body guard d simulator acc' y) = Ok a2) as Hswap.
    { apply GetData_body_swap. by rewrite Hy. }
    destruct (GetData_body guard d simulator acc x) as [b1| |];
      cbn [bind] in Hswap |- *; [|done..].
    by rewrite Hswap.
  - intros Hl1. by apply IH2, IH1.
Qed.

Lemma accumulate_loop_nonneg d simulator l acc result :
  Forall (λ e : string * value, 0 ≤ number_of e.2) l →
  for_each (GetData_body is_not_str d simulator) l acc = Ok result →
  nonneg (viewFull acc) → nonneg (viewCode acc) → nonneg (viewSingle acc) →
  nonneg (viewFull result) ∧ nonneg (viewCode result)
  ∧ nonneg (viewSingle result).
Proof.
  intros Hall. revert acc.
  induction Hall as [|entry l Hentry _ IH]; intros acc.
  - simpl. by intros [= <-].
  - cbn [for_each].
    destruct (GetData_body_effect is_not_str d simulator entry)
      as [He|[(p & sf & sc & ss & Hp & He)|(f & Hf & He)]];
      rewrite He; cbn [bind].
    + apply IH.
    + intros Hloop H1 H2 H3. rewrite Hp in Hentry. simpl in Hentry.
      apply (IH _ Hloop); by apply nonneg_AddProbToResults.
    + destruct f; [by destruct (Hf a)|done..].
Qed.

End Order.

Lemma accumulate_order_independent_witness :
  for_each (GetData_body is_not_str 3 true)
    [("010101"%string, Num (Q2Qc 0.25)); ("000000"%string, Num (Q2Qc 0.75))]
    (Views ∅ ∅ ∅)
  = Ok (match for_each (GetData_body is_not_str 3 true)
                [("000000"%string, Num (Q2Qc 0.75));
                 ("010101"%string, Num (Q2Qc 0.25))] (Views ∅ ∅ ∅) with
        | Ok v => v
        | _ => Views ∅ ∅ ∅
        end).
Proof.
  apply (accumulate_order_independent is_not_str 3 true
           [("000000"%string, Num (Q2Qc 0.75)); ("010101"%string, Num (Q2Qc 0.25))]).
  - apply perm_swap.
  - vm_compute. reflexivity.
Defined.

(** ** More on the decoder *)

Section DecoderMore.

Implicit Types (table other : gmap string Qc).

Lemma CalculateError_loop_missing bit results l error :
  results !! ((bit + 1) mod 2)%nat = None →
  for_each (CalculateError_body bit results) l error
  = match l with [] => Ok error | _ => Raise IndexError end.
Proof.
  intros Hother. destruct l as [|entry l]; [done|].
  cbn [for_each]. unfold CalculateError_body. by rewrite Hother.
Qed.

(** X10.  The loop of [CalculateError] gives the same error in whatever
    order the strings of [results[bit]] are visited. *)
Theorem CalculateError_order_independent bit results l1 l2 error :
  l1 ≡ₚ l2 →
  for_each (CalculateError_body bit results) l1 error
  = for_each (CalculateError_body bit results) l2 error.
Proof.
  intros Hperm.
  destruct (results !! ((bit + 1) mod 2)%nat) as [other|] eqn:Hother.
  - rewrite !(CalculateError_loop _ _ other) by done.
    by rewrite (Qc_sum_perm _ _ (fmap_Permutation _ _ _ Hperm)).
  - rewrite !CalculateError_loop_missing by done.
    destruct l1, l2; try done.
    + by apply Permutation_nil_cons in Hperm.
    + symmetry in Hperm. by apply Permutation_nil_cons in Hperm.
Qed.

(** X11.  [CalculateError(bit, results)] raises [IndexError] when
    [results] has no entry [bit]; when [results[bit]] exists and is empty
    it returns 0 whatever else [results] holds; and when [results[bit]] is
    not empty but [results] has no entry [(bit+1)%2] it raises
    [IndexError]. *)
Theorem CalculateError_index_errors bit results :
  (results !! bit = None → CalculateError bit results = Raise IndexError)
  ∧ (results !! bit = Some ∅ → CalculateError bit results = Ok 0)
  ∧ (∀ table, results !! bit = Some table → table ≠ ∅ →
       results !! ((bit + 1) mod 2)%nat = None →
       CalculateError bit results = Raise IndexError).
Proof.
  unfold CalculateError. repeat split.
  - by intros ->.
  - intros ->. cbn [bind]. by rewrite map_to_list_empty.
  - intros table -> Hne Hother. cbn [bind].
    rewrite CalculateError_loop_missing by done.
    destruct (map_to_list table) eqn:Hl; [|done].
    by apply map_to_list_empty_iff in Hl.
Qed.

Lemma contribution_absent table key v :
  table !! key = None → 0 ≤ v → contribution table (key, v) = 0.
Proof.
  intros Hkey Hv. apply contribution_disjoint; [done|].
  intros w. by rewrite Hkey.
Qed.

Lemma contribution_agree other other' key v :
  other !! key = other' !! key →
  contribution other (key, v) = contribution other' (key, v).
Proof. unfold contribution. simpl. by intros ->. Qed.

Lemma error_sum_agree table other other' :
  (∀ key, is_Some (table !! key) → other !! key = other' !! key) →
  Qc_sum (contribution other <$> map_to_list table)
  = Qc_sum (contribution other' <$> map_to_list table).
Proof.
  intros Hagree. f_equal. apply Forall_fmap_ext, list.Forall_forall.
  intros [key v] Hin%elem_of_map_to_list.
  apply contribution_agree, Hagree. by exists v.
Qed.


Lemma error_sum_insert table other key v :
  table !! key = None →
  Qc_sum (contribution other <$> map_to_list (<[key := v]> table))
  = contribution other (key, v)
    + Qc_sum (contribution other <$> map_to_list table).
Proof.
  intros Hkey. rewrite <-Qc_sum_cons, <-fmap_cons.
  apply Qc_sum_perm, fmap_Permutation. by apply map_to_list_insert.
Qed.

Lemma contribution_pair table other key v w :
  table !! key = Some v → other !! key = Some w →
  contribution other (key, v) + contribution table (key, w)
  = if bool_decide (v ≤ w) then v else w.
Proof.
  intros Hv Hw. unfold contribution. simpl. rewrite Hv, Hw. simpl.
  destruct (Qclt_le_dec v w) as [Hlt|Hle].
  - rewrite (bool_decide_eq_true_2 (v < w)) by done.
    rewrite (bool_decide_eq_false_2 (w < v))
      by (apply Qcle_not_lt; by apply Qclt_le_weak).
    rewrite (bool_decide_eq_false_2 (v = w)) by (by apply Qclt_not_eq).
    rewrite (bool_decide_eq_true_2 (v ≤ w)) by (by apply Qclt_le_weak). ring.
  - rewrite (bool_decide_eq_false_2 (v < w)) by (by apply Qcle_not_lt).
    destruct (decide (w = v)) as [->|Hne].
    + rewrite (bool_decide_eq_false_2 (v < v)) by (by apply Qcle_not_lt).
      rewrite !bool_decide_eq_true_2 by done.
      replace (Q2Qc 0.5 * v + Q2Qc 0.5 * v) with ((Q2Qc 0.5 + Q2Qc 0.5) * v)
        by ring.
      replace (Q2Qc 0.5 + Q2Qc 0.5) with 1 by (apply Qc_is_canon; by vm_compute).
      ring.
    + assert (w < v) as Hlt.
      { destruct (Qclt_le_dec w v) as [?|Hvw]; [done|].
        destruct Hne. by apply Qcle_antisym. }
      rewrite (bool_decide_eq_false_2 (w = v)) by done.
      rewrite (bool_decide_eq_true_2 (w < v)) by done.
      rewrite (bool_decide_eq_false_2 (v ≤ w)) by (by apply Qclt_not_le).
      ring.
Qed.

End DecoderMore.

Section Overlap.

Implicit Types (table other : gmap string Qc).

Lemma overlap_lookup r0 r1 key :
  overlap r0 r1 !! key
  = match r0 !! key, r1 !! key with
    | Some p0, Some p1 => Some (if bool_decide (p0 ≤ p1) then p0 else p1)
    | _, _ => None
    end.
Proof.
  unfold overlap. rewrite lookup_intersection_with.
  by destruct (r0 !! key), (r1 !! key).
Qed.

Lemma nonneg_insert table key v :
  table !! key = None → nonneg (<[key := v]> table) → 0 ≤ v ∧ nonneg table.
Proof.
  intros Hkey Hpos. split.
  - apply (Hpos key). by rewrite lookup_insert_eq.
  - intros key' v' Hv'. apply (Hpos key').
    rewrite lookup_insert_ne; [done|]. intros ->. congruence.
Qed.

Lemma error_sum_lookup table other key w :
  table !! key = Some w →
  Qc_sum (contribution other <$> map_to_list table)
  = contribution other (key, w)
    + Qc_sum (contribution other <$> map_to_list (delete key table)).
Proof.
  intros Hw. rewrite <-(insert_delete_id table key w Hw) at 1.
  apply error_sum_insert, lookup_delete_eq.
Qed.

Lemma error_sums_overlap r0 r1 :
  nonneg r0 → nonneg r1 →
  Qc_sum (contribution r1 <$> map_to_list r0)
  + Qc_sum (contribution r0 <$> map_to_list r1)
  = total (overlap r0 r1).
Proof.
  revert r1. induction r0 as [|key v m Hkey IH] using map_ind; intros r1 H0 H1.
  - rewrite map_to_list_empty, fmap_nil, Qc_sum_nil.
    assert (overlap ∅ r1 = ∅) as ->.
    { apply map_eq. intros k. by rewrite overlap_lookup, !lookup_empty. }
    rewrite total_empty, Qcplus_0_l.
    apply Qc_sum_zero, Forall_fmap, list.Forall_forall.
    intros [k w] Hin%elem_of_map_to_list. simpl.
    apply contribution_absent; [apply lookup_empty|by eapply H1].
  - apply nonneg_insert in H0 as [Hv Hm]; [|done].
    rewrite error_sum_insert by done.
    destruct (r1 !! key) as [w|] eqn:Hw.
    + assert (Qc_sum (contribution (<[key := v]> m) <$> map_to_list r1)
              = contribution (<[key := v]> m) (key, w)
                + Qc_sum (contribution m <$> map_to_list r1)) as ->.
      { rewrite (error_sum_lookup r1 (<[key := v]> m) key w Hw).
        rewrite (error_sum_lookup r1 m key w Hw).
        rewrite (contribution_absent m key w Hkey) by (by eapply H1).
        rewrite Qcplus_0_l. f_equal. apply error_sum_agree.
        intros k [x Hx]. rewrite lookup_insert_ne; [done|].
        intros <-. by rewrite lookup_delete_eq in Hx. }
      assert (overlap (<[key := v]> m) r1
              = <[key := if bool_decide (v ≤ w) then v else w]> (overlap m r1))
        as ->.
      { apply map_eq. intros k. rewrite overlap_lookup.
        destruct (decide (key = k)) as [<-|Hne].
        - by rewrite !lookup_insert_eq, Hw.
        - by rewrite !lookup_insert_ne, overlap_lookup by done. }
      rewrite total_insert_fresh by (by rewrite overlap_lookup, Hkey).
      rewrite <-(IH r1 Hm H1).
      rewrite <-(contribution_pair (<[key := v]> m) r1 key v w)
        by (done || apply lookup_insert_eq).
      ring.
    + rewrite (contribution_absent r1 key v Hw Hv), Qcplus_0_l.
      assert (overlap (<[key := v]> m) r1 = overlap m r1) as ->.
      { apply map_eq. intros k. rewrite !overlap_lookup.
        destruct (decide (key = k)) as [<-|Hne].
        - by rewrite lookup_insert_eq, Hw, Hkey.
        - by rewrite lookup_insert_ne by done. }
      rewrite <-(IH r1 Hm H1). f_equal. apply error_sum_agree.
      intros k [x Hx]. rewrite lookup_insert_ne; [done|].
      intros <-. congruence.
Qed.

(** X13.  For two lookup tables with non-negative values, the errors for
    the two encoded bits add up to the overlap of the tables: the sum,
    over the strings that both tables hold, of the smaller of the two
    probabilities. *)
Theorem CalculateError_sum_is_overlap r0 r1 :
  nonneg r0 → nonneg r1 →
  ∃ error0 error1,
    CalculateError 0 [r0; r1] = Ok error0
    ∧ CalculateError 1 [r0; r1] = Ok error1
    ∧ error0 + error1 = total (overlap r0 r1).
Proof.
  intros H0 H1. eexists _, _. split; [|split].
  - by apply (CalculateError_sum 0 _ r0 r1).
  - by apply (CalculateError_sum 1 _ r1 r0).
  - by apply error_sums_overlap.
Qed.

End Overlap.


Lemma CalculateError_index_errors_witness :
  CalculateError 0 [∅] = Ok 0
  ∧ CalculateError 0 [{["0"%string := 1]}] = Raise IndexError
  ∧ CalculateError 2 [∅; ∅] = Raise IndexError.
Proof.
  destruct (CalculateError_index_errors 0 [∅]) as (_ & Hempty & _).
  destruct (CalculateError_index_errors 0 [{["0"%string := 1]}])
    as (_ & _ & Hother).
  destruct (CalculateError_index_errors 2 [∅; ∅]) as (Hbit & _).
  split; [|split].
  - by apply Hempty.
  - apply (Hother {["0"%string := 1]}); [done| |done].
    intros Hem. by apply (f_equal (lookup "0"%string)) in Hem.
  - by apply Hbit.
Defined.

Lemma CalculateError_order_independent_witness :
  for_each (CalculateError_body 0 [example_table0; example_table1])
    [("000"%string, Q2Qc 0.669); ("111"%string, Q2Qc 0.001)] 0
  = for_each (CalculateError_body 0 [example_table0; example_table1])
      [("111"%string, Q2Qc 0.001); ("000"%string, Q2Qc 0.669)] 0.
Proof.
  apply CalculateError_order_independent. apply perm_swap.
Defined.

Lemma CalculateError_sum_is_overlap_witness :
  ∃ error0 error1,
    CalculateError 0 [example_table0; example_table1] = Ok error0
    ∧ CalculateError 1 [example_table0; example_table1] = Ok error1
    ∧ error0 + error1 = total (overlap example_table0 example_table1).
Proof.
  apply CalculateError_sum_is_overlap.
  - apply (bool_decide_unpack (map_Forall (λ _ v, 0 ≤ v) example_table0)).
    by vm_compute.
  - apply (bool_decide_unpack (map_Forall (λ _ v, 0 ≤ v) example_table1)).
    by vm_compute.
Defined.

(** ** [GetData] returns probabilities *)

(** Turns an inequality between canonical rationals into one between
    plain rationals, where [lra] and [nra] apply. *)
Ltac qc_to_q :=
  unfold Qcle, Qclt in *;
  cbn [this Qcmult Qcplus Qcminus Qcopp Q2Qc] in *;
  rewrite ?Qred_correct in *.

Section Probabilities.

Implicit Types (table : gmap string Qc).


Lemma Qc_mult_nonneg (a b : Qc) : 0 ≤ a → 0 ≤ b → 0 ≤ a * b.
Proof. intros Ha Hb. qc_to_q. nra. Qed.

Lemma total_fmap_mult (c : Qc) table :
  total ((λ q, q * c) <$> table) = total table * c.
Proof.
  unfold total. rewrite map_to_list_fmap, <-list_fmap_compose.
  rewrite (Qcmult_comm _ c), <-Qc_sum_scale, <-list_fmap_compose.
  f_equal. apply list_fmap_ext. intros i [key v] _. simpl. ring.
Qed.

Lemma fractions_distribution (cnts : gmap string Qc) :
  complete_counts cnts →
  nonneg ((λ count, count / Qc_of_Z shots) <$> cnts)
  ∧ total ((λ count, count / Qc_of_Z shots) <$> cnts) = 1.
Proof.
  intros (_ & Hpos & Htotal). split.
  - intros key v. rewrite lookup_fmap.
    destruct (cnts !! key) as [count|] eqn:Hcount; [|done].
    intros [= <-]. apply Qc_mult_nonneg; [by eapply Hpos|by vm_compute].
  - unfold Qcdiv. rewrite total_fmap_mult, Htotal.
    apply Qcmult_inv_r. by vm_compute.
Qed.

(** On a distribution whose keys have one character per qubit, the loop
    of [GetData] returns three distributions of the same total. *)
Lemma accumulate_distribution d simulator table :
  nonneg table →
  (∀ key, key ∈ dom table → well_formed_key d simulator key) →
  ∃ v, accumulate d simulator (Num <$> table) = Ok v
       ∧ (nonneg (viewFull v) ∧ total (viewFull v) = total table)
       ∧ (nonneg (viewCode v) ∧ total (viewCode v) = total table)
       ∧ (nonneg (viewSingle v) ∧ total (viewSingle v) = total table).
Proof.
  intros Hpos Hkeys.
  destruct (accumulate_returns d simulator table) as (v & Hv & Hf & Hc & Hs).
  { intros key q Hq. apply Hkeys, elem_of_dom. by exists q. }
  exists v. split; [done|].
  assert (nonneg (viewFull v) ∧ nonneg (viewCode v) ∧ nonneg (viewSingle v))
    as (Hpf & Hpc & Hps); [|done].
  unfold accumulate, accumulate_with in Hv.
  eapply accumulate_loop_nonneg; [|exact Hv|done..].
  rewrite map_to_list_fmap. apply Forall_fmap, list.Forall_forall.
  intros [key q] Hin%elem_of_map_to_list. simpl. by eapply Hpos.
Qed.

Lemma CalculateError_probability bit r0 r1 table :
  [r0; r1] !! bit = Some table →
  nonneg table →
  total table ≤ 1 →
  ∃ error, CalculateError bit [r0; r1] = Ok error ∧ probability error.
Proof.
  intros Htable Hpos Hmass.
  destruct (pair_tables _ _ _ _ Htable) as (other & Hother & _).
  exists (Qc_sum (contribution other <$> map_to_list table)).
  split; [by apply CalculateError_sum|].
  assert (Forall (λ e : string * Qc, 0 ≤ e.2) (map_to_list table)) as Hall.
  { apply list.Forall_forall. intros [key v] Hin%elem_of_map_to_list.
    by eapply Hpos. }
  split.
  - apply Qc_sum_nonneg, Forall_fmap.
    eapply list.Forall_impl; [exact Hall|].
    intros [key v] Hv. by apply contribution_bounds.
  - eapply Qcle_trans; [|exact Hmass].
    apply Qc_sum_le, Forall2_fmap, Forall_Forall2_diag.
    eapply list.Forall_impl; [exact Hall|].
    intros [key v] Hv. by apply contribution_bounds.
Qed.

(** X14.  On a backend that, after any number of incomplete responses,
    answers each of the two jobs with complete counts whose strings have
    one character per qubit, [GetData] returns: it has consumed exactly
    those responses, submitted the job for bit 0 and then the job for
    bit 1 once per response, and each of the six values it returns is a
    probability. *)
Theorem GetData_returns_probabilities
    d device verbose w j0 j1 pre0 counts0 pre1 counts1 rest :
  RunRepetition_job 0 d device = Ok j0 →
  RunRepetition_job 1 d device = Ok j1 →
  responses w = pre0 ++ (Num <$> counts0) :: pre1 ++ (Num <$> counts1) :: rest →
  Forall incomplete pre0 → Forall incomplete pre1 →
  complete_counts counts0 → complete_counts counts1 →
  (∀ key, key ∈ dom counts0 ∪ dom counts1 →
          well_formed_key d (bool_decide (device ≠ "ibmqx3"%string)) key) →
  ∃ f0 f1 c0 c1 s0 s1,
    GetData d device verbose w
    = (Ok ([f0; f1], [c0; c1], [s0; s1]),
       World rest (submitted w ++ replicate (S (length pre0)) j0
                   ++ replicate (S (length pre1)) j1))
    ∧ Forall probability [f0; f1; c0; c1; s0; s1].
Proof.
  intros Hj0 Hj1 Hresp Hpre0 Hpre1 Hc0 Hc1 Hkeys.
  destruct (fractions_distribution counts0 Hc0) as [Hpos0 Hone0].
  destruct (fractions_distribution counts1 Hc1) as [Hpos1 Hone1].
  destruct (accumulate_distribution d (bool_decide (device ≠ "ibmqx3"%string))
              _ Hpos0)
    as (v0 & Hv0 & [Hf0 Htf0] & [Hcd0 Htc0] & [Hs0 Hts0]).
  { intros key Hkey. apply Hkeys. rewrite dom_fmap_L in Hkey. set_solver. }
  destruct (accumulate_distribution d (bool_decide (device ≠ "ibmqx3"%string))
              _ Hpos1)
    as (v1 & Hv1 & [Hf1 Htf1] & [Hcd1 Htc1] & [Hs1 Hts1]).
  { intros key Hkey. apply Hkeys. rewrite dom_fmap_L in Hkey. set_solver. }
  rewrite Hone0 in Htf0, Htc0, Hts0. rewrite Hone1 in Htf1, Htc1, Hts1.
  assert (∀ x : Qc, x = 1 → x ≤ 1) as Hle by (intros x ->; apply Qcle_refl).
  destruct (CalculateError_probability 0 (viewFull v0) (viewFull v1) _ eq_refl
              Hf0 (Hle _ Htf0)) as (f0 & Hef0 & Hpf0).
  destruct (CalculateError_probability 1 (viewFull v0) (viewFull v1) _ eq_refl
              Hf1 (Hle _ Htf1)) as (f1 & Hef1 & Hpf1).
  destruct (CalculateError_probability 0 (viewCode v0) (viewCode v1) _ eq_refl
              Hcd0 (Hle _ Htc0)) as (c0 & Hec0 & Hpc0).
  destruct (CalculateError_probability 1 (viewCode v0) (viewCode v1) _ eq_refl
              Hcd1 (Hle _ Htc1)) as (c1 & Hec1 & Hpc1).
  destruct (CalculateError_probability 0 (viewSingle v0) (viewSingle v1) _
              eq_refl Hs0 (Hle _ Hts0)) as (s0 & Hes0 & Hps0).
  destruct (CalculateError_probability 1 (viewSingle v0) (viewSingle v1) _
              eq_refl Hs1 (Hle _ Hts1)) as (s1 & Hes1 & Hps1).
  exists f0, f1, c0, c1, s0, s1.
  split; [|repeat (constructor; [assumption|]); constructor].
  unfold GetData, GetData_with, bindM, lift.
  rewrite (RunRepetition_retry 0 d device w j0 pre0 (Num <$> counts0)
             (pre1 ++ (Num <$> counts1) :: rest)); try done; last first.
  { unfold incomplete. rewrite dom_fmap_L. by destruct Hc0. }
  rewrite to_fractions_numbers, Hv0.
  rewrite (RunRepetition_retry 1 d device _ j1 pre1 (Num <$> counts1) rest);
    try done; last first.
  { unfold incomplete. rewrite dom_fmap_L. by destruct Hc1. }
  rewrite to_fractions_numbers, Hv1.
  rewrite Hef0, Hec0, Hes0, Hef1, Hec1, Hes1. cbn [bind submitted].
  by rewrite <-app_assoc.
Qed.

End Probabilities.

Lemma GetData_returns_probabilities_witness :
  ∃ f0 f1 c0 c1 s0 s1,
    GetData 1 "local_qasm_simulator" false
      (World [{["status"%string := Str "Error"]}; Num <$> example_counts;
              Num <$> example_counts'] [])
    = (Ok ([f0; f1], [c0; c1], [s0; s1]),
       World [] ([] ++ replicate 2 example_job
                 ++ replicate 1
                      (match RunRepetition_job 1 1 "local_qasm_simulator" with
                       | Ok j => j
                       | _ => Job [] 0 "" 0
                       end)))
    ∧ Forall probability [f0; f1; c0; c1; s0; s1].
Proof.
  apply (GetData_returns_probabilities 1 "local_qasm_simulator" false
           (World [{["status"%string := Str "Error"]}; Num <$> example_counts;
                   Num <$> example_counts'] [])
           _ _ [{["status"%string := Str "Error"]}] example_counts []
           example_counts' []).
  - by vm_compute.
  - by vm_compute.
  - reflexivity.
  - constructor; [|constructor]. apply (bool_decide_unpack _). by vm_compute.
  - constructor.
  - split; [|split].
    + apply (bool_decide_unpack _). by vm_compute.
    + apply (bool_decide_unpack (map_Forall (λ _ v, 0 ≤ v) example_counts)).
      by vm_compute.
    + apply Qc_is_canon. by vm_compute.
  - split; [|split].
    + apply (bool_decide_unpack _). by vm_compute.
    + apply (bool_decide_unpack (map_Forall (λ _ v, 0 ≤ v) example_counts')).
      by vm_compute.
    + apply Qc_is_canon. by vm_compute.
  - intros key Hkey.
    assert (key ∈ ["00"; "01"; "10"; "11"]%string) as Hin.
    { apply (elem_of_list_to_set (C := gset string)).
      replace (list_to_set ["00"; "01"; "10"; "11"]%string : gset string)
        with (dom example_counts ∪ dom example_counts'); [done|].
      by vm_compute. }
    repeat (apply elem_of_cons in Hin as [->|Hin]; [by split|]).
    by apply elem_of_nil in Hin.
Defined.

(** ** The statistics of the runs *)

Section Statistics.

Implicit Types (es : list Qc).


Lemma Qc_of_Z_nonneg (z : Z) : (0 ≤ z)%Z → 0 ≤ Qc_of_Z z.
Proof.
  intros Hz. unfold Qcle. simpl. unfold Qle. simpl. lia.
Qed.








End Statistics.


(** ** A response that is neither incomplete nor made of counts *)

Section BadResponse.

Lemma to_fractions_loop_type_error n keys (results : gmap string value) bad :
  (∀ key, key ∈ keys → is_Some (results !! key)) →
  bad ∈ keys →
  (∀ v, results !! bad = Some v → ∀ q, v ≠ Num q) →
  for_each (to_fractions_body n) keys results = Raise TypeError.
Proof.
  revert results. induction keys as [|key keys IH]; intros results Hdom Hbad Hv.
  - by apply elem_of_nil in Hbad.
  - cbn [for_each]. unfold to_fractions_body at 1.
    destruct (Hdom key) as [old Hold]; [apply list_elem_of_here|].
    rewrite Hold. cbn [bind].
    destruct old as [q|s|]; cbn [Py.div bind]; [|done..].
    assert (bad ≠ key) as Hne.
    { intros ->. by apply (Hv _ Hold q). }
    apply IH.
    + intros key' Hin. destruct (decide (key' = key)) as [->|Hne'].
      * rewrite lookup_insert_eq. by eexists.
      * rewrite lookup_insert_ne by done. by apply Hdom, list_elem_of_further.
    + by apply elem_of_cons in Hbad as [?|?].
    + rewrite lookup_insert_ne by done. apply Hv.
Qed.

Lemma to_fractions_type_error n (results : gmap string value) bad v :
  results !! bad = Some v → (∀ q, v ≠ Num q) →
  to_fractions n results = Raise TypeError.
Proof.
  intros Hbad Hv. unfold to_fractions.
  apply (to_fractions_loop_type_error n _ results bad).
  - intros key ([key' v'] & -> & Hin%elem_of_map_to_list)%list_elem_of_fmap.
    by exists v'.
  - apply list_elem_of_fmap. exists (bad, v). split; [done|].
    by apply elem_of_map_to_list.
  - intros v' Hv'. congruence.
Qed.

(** X16.  A response without the key ["status"] ends the polling loop
    even when it does not consist of counts: if one of its values is not
    a number, the division by the number of shots raises [TypeError], and
    [RunRepetition] raises it after having submitted the job once for
    every response it consumed. *)
Theorem RunRepetition_non_numeric_response bit d device w j pre good rest key v :
  RunRepetition_job bit d device = Ok j →
  responses w = pre ++ good :: rest →
  Forall incomplete pre →
  ¬ incomplete good →
  good !! key = Some v →
  (∀ q, v ≠ Num q) →
  RunRepetition bit d device w
  = (Raise TypeError,
     World rest (submitted w ++ replicate (S (length pre)) j)).
Proof.
  intros Hjob Hresp Hpre Hgood Hkey Hv.
  rewrite (RunRepetition_retry bit d device w j pre good rest) by done.
  by rewrite (to_fractions_type_error shots good key v).
Qed.

End BadResponse.

Lemma RunRepetition_non_numeric_response_witness :
  RunRepetition 0 1 "local_qasm_simulator"
    (World [{["status"%string := Str "Error"]};
            {["00"%string := Num 1; "error"%string := Str "timeout"]}] [])
  = (Raise TypeError, World [] ([] ++ replicate 2 example_job)).
Proof.
  apply (RunRepetition_non_numeric_response 0 1 "local_qasm_simulator"
           (World [{["status"%string := Str "Error"]};
                   {["00"%string := Num 1; "error"%string := Str "timeout"]}] [])
           example_job [{["status"%string := Str "Error"]}]
           {["00"%string := Num 1; "error"%string := Str "timeout"]} []
           "error"%string (Str "timeout")).
  - by vm_compute.
  - reflexivity.
  - constructor; [|constructor]. apply (bool_decide_unpack _). by vm_compute.
  - apply (bool_decide_unpack _). by vm_compute.
  - by vm_compute.
  - discriminate.
Defined.

(** ** The tables of means and variances *)

Section Tables.

Implicit Types (table : list (list Qc)) (s : stats).

Lemma list_index_ok {A} (l : list A) (i : Z) x :
  (0 ≤ i)%Z → l !! Z.to_nat i = Some x → list_index l i = Ok x.
Proof.
  intros Hi Hx. unfold list_index.
  pose proof (lookup_lt_Some _ _ _ Hx).
  rewrite (proj2 (Z.ltb_ge i 0)) by lia.
  rewrite (proj2 (Z.leb_le 0 i)), (proj2 (Z.ltb_lt i _)) by lia.
  by rewrite Hx.
Qed.

Lemma list_index_out_of_range {A} (l : list A) (i : Z) :
  (Z.of_nat (length l) ≤ i)%Z → list_index l i = Raise IndexError.
Proof.
  intros Hi. unfold list_index.
  rewrite (proj2 (Z.ltb_ge i 0)) by lia.
  rewrite (proj2 (Z.ltb_ge i _)) by lia. by rewrite andb_false_r.
Qed.

Lemma list_assign_ok {A} (l : list A) (i : Z) x :
  (0 ≤ i < Z.of_nat (length l))%Z →
  list_assign l i x = Ok (<[Z.to_nat i := x]> l).
Proof.
  intros Hi. unfold list_assign.
  rewrite (proj2 (Z.ltb_ge i 0)) by lia.
  by rewrite (proj2 (Z.leb_le 0 i)), (proj2 (Z.ltb_lt i _)) by lia.
Qed.

Lemma shaped_cell table row bit :
  shaped table → (0 ≤ row < 6)%Z → (0 ≤ bit < 2)%Z →
  ∃ r old, table !! Z.to_nat row = Some r ∧ r !! Z.to_nat bit = Some old
           ∧ length r = 2%nat.
Proof.
  intros [Hlen Hrows] Hrow Hbit.
  destruct (lookup_lt_is_Some_2 table (Z.to_nat row)) as [r Hr]; [lia|].
  pose proof (proj1 (list.Forall_lookup _ _) Hrows _ _ Hr) as Hr2.
  simpl in Hr2.
  destruct (lookup_lt_is_Some_2 r (Z.to_nat bit)) as [old Hold]; [lia|].
  by exists r, old.
Qed.

Lemma table_cell_read table row bit :
  shaped table → (0 ≤ row < 6)%Z → (0 ≤ bit < 2)%Z →
  table_cell table row bit = Some (read table row bit).
Proof.
  intros Hs Hrow Hbit.
  destruct (shaped_cell table row bit Hs Hrow Hbit) as (r & old & Hr & Hold & _).
  unfold read, table_cell. rewrite Hr. simpl. by rewrite Hold.
Qed.

Lemma table_augment_pure op table row bit x v :
  shaped table → (0 ≤ row < 6)%Z → (0 ≤ bit < 2)%Z → x = Ok v →
  table_augment op table row bit x
  = Ok (cell_update (λ old, op old v) table row bit).
Proof.
  intros Hs Hrow Hbit ->.
  destruct (shaped_cell table row bit Hs Hrow Hbit)
    as (r & old & Hr & Hold & Hlen).
  unfold table_augment, cell_update.
  rewrite (list_index_ok table row r) by (done || lia). cbn [bind].
  rewrite (list_index_ok r bit old) by (done || lia). cbn [bind].
  rewrite list_assign_ok by lia. cbn [bind].
  rewrite list_assign_ok by (destruct Hs; lia).
  apply (f_equal Ok), list_eq. intros i.
  destruct (decide (i = Z.to_nat row)) as [->|Hne].
  - rewrite list_lookup_insert_eq by (destruct Hs; lia).
    rewrite list_lookup_alter_eq, Hr. simpl. f_equal.
    apply list_eq. intros k.
    destruct (decide (k = Z.to_nat bit)) as [->|Hnk].
    + rewrite list_lookup_insert_eq by lia.
      by rewrite list_lookup_alter_eq, Hold.
    + by rewrite list_lookup_insert_ne, list_lookup_alter_ne by done.
  - by rewrite list_lookup_insert_ne, list_lookup_alter_ne by done.
Qed.

Lemma shaped_cell_update f table row bit :
  shaped table → shaped (cell_update f table row bit).
Proof.
  intros [Hlen Hrows]. unfold cell_update. split.
  - by rewrite length_alter.
  - apply list.Forall_lookup. intros i r.
    destruct (decide (i = Z.to_nat row)) as [->|Hne].
    + rewrite list_lookup_alter_eq.
      destruct (table !! Z.to_nat row) as [r0|] eqn:Hr0; [|done].
      intros [= <-]. rewrite length_alter.
      by apply (proj1 (list.Forall_lookup _ _) Hrows _ _ Hr0).
    + rewrite list_lookup_alter_ne by done.
      apply (proj1 (list.Forall_lookup _ _) Hrows).
Qed.

Lemma read_cell_update f table row bit row' bit' :
  shaped table → (0 ≤ row < 6)%Z → (0 ≤ bit < 2)%Z →
  (0 ≤ row')%Z → (0 ≤ bit')%Z →
  read (cell_update f table row bit) row' bit'
  = if decide (row' = row ∧ bit' = bit) then f (read table row' bit')
    else read table row' bit'.
Proof.
  intros Hs Hrow Hbit Hrow' Hbit'.
  destruct (shaped_cell table row bit Hs Hrow Hbit)
    as (r & old & Hr & Hold & Hlen).
  unfold read, table_cell, cell_update.
  destruct (decide (row' = row)) as [->|Hne].
  - rewrite list_lookup_alter_eq, Hr. simpl.
    destruct (decide (bit' = bit)) as [->|Hnb].
    + rewrite decide_True by done.
      by rewrite list_lookup_alter_eq, Hold.
    + rewrite decide_False by (by intros [_ ?]).
      by rewrite list_lookup_alter_ne by lia.
  - rewrite decide_False by (by intros [? _]).
    by rewrite list_lookup_alter_ne by lia.
Qed.

End Tables.

Section TableSteps.

Implicit Types (table : list (list Qc)) (s : stats) (outcome : Z → Z → errors).

Lemma list_index_value (values : list Qc) bit :
  length values = 2%nat → (0 ≤ bit < 2)%Z →
  list_index values bit = Ok (value_at values bit).
Proof.
  intros Hlen Hbit.
  destruct (lookup_lt_is_Some_2 values (Z.to_nat bit)) as [e He]; [lia|].
  unfold value_at. rewrite He. apply list_index_ok; [lia|done].
Qed.

Lemma shaped_stats_bit totalRuns d out s bit :
  shaped_stats s → shaped_stats (stats_bit totalRuns d out s bit).
Proof.
  intros (H1 & H2 & H3 & H4 & H5 & H6). unfold shaped_stats.
  repeat match goal with |- _ ∧ _ => split end; by apply shaped_cell_update.
Qed.

Lemma shaped_stats_finish_bit d s bit :
  shaped_stats s → shaped_stats (stats_finish_bit d s bit).
Proof.
  intros (H1 & H2 & H3 & H4 & H5 & H6). unfold shaped_stats.
  repeat match goal with |- _ ∧ _ => split end;
    (done || by apply shaped_cell_update).
Qed.

Lemma record_bit_pure totalRuns d out s bit :
  shaped_stats s → (3 ≤ d ≤ 8)%Z → (0 ≤ bit < 2)%Z → two_values out →
  record_bit totalRuns d out s bit = Ok (stats_bit totalRuns d out s bit).
Proof.
  intros (H1 & H2 & H3 & H4 & H5 & H6) Hd Hbit (Hf & Hc & Hs).
  unfold record_bit, stats_bit. cbv zeta beta.
  rewrite !list_index_value by done. cbn [bind].
  repeat (erewrite table_augment_pure; [|done|lia|done|reflexivity];
          cbn [bind]).
  done.
Qed.

Lemma square_of_mean_pure table row bit :
  shaped table → (0 ≤ row < 6)%Z → (0 ≤ bit < 2)%Z →
  (r <- list_index table row ;; m <- list_index r bit ;; Ok (m * m))
  = Ok (read table row bit * read table row bit).
Proof.
  intros Hs Hrow Hbit.
  destruct (shaped_cell table row bit Hs Hrow Hbit) as (r & m & Hr & Hm & _).
  rewrite (list_index_ok table row r) by (done || lia). cbn [bind].
  rewrite (list_index_ok r bit m) by (done || lia). cbn [bind].
  unfold read, table_cell. rewrite Hr. simpl. by rewrite Hm.
Qed.

Lemma finish_bit_pure d s bit :
  shaped_stats s → (3 ≤ d ≤ 8)%Z → (0 ≤ bit < 2)%Z →
  finish_bit d s bit = Ok (stats_finish_bit d s bit).
Proof.
  intros (H1 & H2 & H3 & H4 & H5 & H6) Hd Hbit.
  unfold finish_bit, stats_finish_bit. cbv zeta beta.
  repeat (erewrite table_augment_pure;
          [|done|lia|done|by apply square_of_mean_pure; [|lia|]];
          cbn [bind]).
  done.
Qed.

Lemma record_runs_pure totalRuns d outcome runs s :
  shaped_stats s → (3 ≤ d ≤ 8)%Z →
  (∀ run, two_values (outcome d run)) →
  for_each (λ s run, for_each (record_bit totalRuns d (outcome d run)) [0; 1]%Z s)
    runs s
  = Ok (foldl (λ s run, foldl (stats_bit totalRuns d (outcome d run)) s [0; 1]%Z)
          s runs)
  ∧ shaped_stats
      (foldl (λ s run, foldl (stats_bit totalRuns d (outcome d run)) s [0; 1]%Z)
         s runs).
Proof.
  intros Hs Hd Hout. revert s Hs.
  induction runs as [|run runs IH]; intros s Hs; [done|].
  cbn [for_each foldl].
  rewrite record_bit_pure by (done || lia). cbn [bind].
  rewrite record_bit_pure by (done || lia || by apply shaped_stats_bit).
  cbn [bind]. apply IH. by do 2 apply shaped_stats_bit.
Qed.

Lemma record_distance_pure totalRuns outcome s d :
  shaped_stats s → (3 ≤ d ≤ 8)%Z →
  (∀ run, two_values (outcome d run)) →
  record_distance totalRuns outcome s d
  = Ok (stats_distance totalRuns outcome s d)
  ∧ shaped_stats (stats_distance totalRuns outcome s d).
Proof.
  intros Hs Hd Hout. unfold record_distance, stats_distance.
  destruct (record_runs_pure totalRuns d outcome (range3 0 totalRuns 1) s)
    as [-> Hs']; [done..|].
  cbn [bind for_each foldl].
  rewrite finish_bit_pure by (done || lia). cbn [bind].
  rewrite finish_bit_pure by (done || lia || by apply shaped_stats_finish_bit).
  cbn [bind]. split; [done|]. by do 2 apply shaped_stats_finish_bit.
Qed.

End TableSteps.

(** One view of the statistics: its table of means, its table of
    variances and the list of [GetData] that feeds them. *)
Section View.

Variables (getM getV : stats → list (list Qc)) (view : errors → list Qc).

Implicit Types (s : stats) (outcome : Z → Z → errors).

Hypothesis getM_shaped : ∀ s, shaped_stats s → shaped (getM s).
Hypothesis getV_shaped : ∀ s, shaped_stats s → shaped (getV s).
Hypothesis getM_bit : ∀ totalRuns d out s bit,
  getM (stats_bit totalRuns d out s bit)
  = cell_update (λ old, old + value_at (view out) bit / Qc_of_Z totalRuns)
      (getM s) (d - 3) bit.
Hypothesis getV_bit : ∀ totalRuns d out s bit,
  getV (stats_bit totalRuns d out s bit)
  = cell_update
      (λ old, old + (value_at (view out) bit * value_at (view out) bit)
                    / Qc_of_Z totalRuns)
      (getV s) (d - 3) bit.
Hypothesis getM_finish : ∀ d s bit, getM (stats_finish_bit d s bit) = getM s.
Hypothesis getV_finish : ∀ d s bit,
  getV (stats_finish_bit d s bit)
  = cell_update
      (λ old, old - read (getM s) (d - 3) bit * read (getM s) (d - 3) bit)
      (getV s) (d - 3) bit.

Lemma cell_at_run totalRuns d out s row bit :
  shaped_stats s → (3 ≤ d ≤ 8)%Z → (0 ≤ row)%Z → (0 ≤ bit < 2)%Z →
  cell_at getM getV (foldl (stats_bit totalRuns d out) s [0; 1]%Z) row bit
  = if decide (row = (d - 3)%Z)
    then add_run totalRuns (cell_at getM getV s row bit) (value_at (view out) bit)
    else cell_at getM getV s row bit.
Proof.
  intros Hs Hd Hrow Hbit. cbn [foldl]. unfold cell_at, add_run. cbn [Mean Var].
  pose proof (shaped_stats_bit totalRuns d out s 0 Hs) as Hs1.
  rewrite !getM_bit, !getV_bit.
  rewrite !read_cell_update
    by (lia || by (apply shaped_cell_update || idtac);
                  (apply getM_shaped || apply getV_shaped)).
  assert (bit = 0 ∨ bit = 1)%Z as [-> | ->] by lia;
    destruct (decide (row = (d - 3)%Z)) as [->|Hne];
    repeat case_decide; try lia; done.
Qed.

Lemma cell_at_runs totalRuns d outcome runs s row bit :
  shaped_stats s → (3 ≤ d ≤ 8)%Z → (0 ≤ row)%Z → (0 ≤ bit < 2)%Z →
  cell_at getM getV
    (foldl (λ s run, foldl (stats_bit totalRuns d (outcome d run)) s [0; 1]%Z)
       s runs) row bit
  = if decide (row = (d - 3)%Z)
    then foldl (add_run totalRuns) (cell_at getM getV s row bit)
           ((λ run, value_at (view (outcome d run)) bit) <$> runs)
    else cell_at getM getV s row bit.
Proof.
  intros Hs Hd Hrow Hbit. revert s Hs.
  induction runs as [|run runs IH]; intros s Hs.
  - simpl. by case_decide.
  - cbn [foldl]. rewrite IH by (by do 2 apply shaped_stats_bit).
    rewrite fmap_cons. cbn [foldl].
    pose proof (cell_at_run totalRuns d (outcome d run) s row bit Hs Hd Hrow Hbit)
      as Hrun. cbn [foldl] in Hrun. rewrite Hrun.
    by case_decide.
Qed.

Lemma cell_at_finish d s row bit :
  shaped_stats s → (3 ≤ d ≤ 8)%Z → (0 ≤ row)%Z → (0 ≤ bit < 2)%Z →
  cell_at getM getV (foldl (stats_finish_bit d) s [0; 1]%Z) row bit
  = if decide (row = (d - 3)%Z) then finish (cell_at getM getV s row bit)
    else cell_at getM getV s row bit.
Proof.
  intros Hs Hd Hrow Hbit. cbn [foldl]. unfold cell_at, finish. cbn [Mean Var].
  rewrite !getM_finish, !getV_finish, !getM_finish.
  rewrite !read_cell_update
    by (lia || by (apply shaped_cell_update || idtac);
                  (apply getM_shaped || apply getV_shaped)).
  assert (bit = 0 ∨ bit = 1)%Z as [-> | ->] by lia;
    destruct (decide (row = (d - 3)%Z)) as [->|Hne];
    repeat case_decide; try lia; done.
Qed.

Lemma cell_at_distance totalRuns outcome s d row bit :
  shaped_stats s → (3 ≤ d ≤ 8)%Z → (0 ≤ row)%Z → (0 ≤ bit < 2)%Z →
  (∀ run, two_values (outcome d run)) →
  cell_at getM getV (stats_distance totalRuns outcome s d) row bit
  = if decide (row = (d - 3)%Z)
    then finish (foldl (add_run totalRuns) (cell_at getM getV s row bit)
                   (run_values view outcome totalRuns d bit))
    else cell_at getM getV s row bit.
Proof.
  intros Hs Hd Hrow Hbit Hout. unfold stats_distance.
  destruct (record_runs_pure totalRuns d outcome (range3 0 totalRuns 1) s)
    as [_ Hs']; [done..|].
  rewrite cell_at_finish, cell_at_runs by done.
  by case_decide.
Qed.

Lemma cell_at_distances totalRuns outcome ds s d bit :
  shaped_stats s → NoDup ds → Forall (λ d', (3 ≤ d' ≤ 8)%Z) ds →
  (∀ d' run, two_values (outcome d' run)) →
  (3 ≤ d ≤ 8)%Z → (0 ≤ bit < 2)%Z →
  for_each (record_distance totalRuns outcome) ds s
  = Ok (foldl (stats_distance totalRuns outcome) s ds)
  ∧ cell_at getM getV (foldl (stats_distance totalRuns outcome) s ds) (d - 3) bit
    = if decide (d ∈ ds)
      then finish (foldl (add_run totalRuns) (cell_at getM getV s (d - 3) bit)
                     (run_values view outcome totalRuns d bit))
      else cell_at getM getV s (d - 3) bit.
Proof.
  intros Hs Hnodup Hds Hout Hd Hbit. revert s Hs.
  induction Hnodup as [|d' ds Hnotin Hnodup IH]; intros s Hs.
  - split; [done|]. cbn [foldl].
    case_decide as Hin; [by apply elem_of_nil in Hin|done].
  - inversion Hds as [|? ? Hd' Hds']; subst.
    destruct (record_distance_pure totalRuns outcome s d' Hs Hd' (Hout d'))
      as [Hstep Hs'].
    cbn [for_each foldl]. rewrite Hstep. cbn [bind].
    destruct (IH Hds' _ Hs') as [-> Hcell]. split; [done|].
    rewrite Hcell, cell_at_distance by (done || lia).
    destruct (decide (d = d')) as [->|Hne].
    + rewrite (decide_False _ _ Hnotin), decide_True by done.
      by rewrite decide_True by apply list_elem_of_here.
    + rewrite (decide_False (P := (d - 3 = d' - 3)%Z)) by lia.
      destruct (decide (d ∈ ds)) as [Hin|Hin].
      * by rewrite decide_True by (by apply list_elem_of_further).
      * rewrite decide_False; [done|]. by intros [?|?]%elem_of_cons.
Qed.

End View.

Section AllDistances.

Implicit Types (s : stats) (outcome : Z → Z → errors).

Lemma range3_step_1 start stop : range3 start stop 1 = seqZ start (stop - start).
Proof.
  unfold range3. rewrite Z.div_1_r.
  replace (stop - start + 1 - 1)%Z with (stop - start)%Z by lia.
  transitivity (Z.add start <$> seqZ 0 (stop - start)).
  - apply list_fmap_ext. intros i x _. lia.
  - by rewrite fmap_add_seqZ, Z.add_0_r.
Qed.

Lemma shaped_initial_stats : shaped_stats initial_stats.
Proof.
  assert (shaped initial_table) by (split; [done|by repeat constructor]).
  unfold shaped_stats, initial_stats. simpl. tauto.
Qed.

Lemma read_initial_table row bit : read initial_table row bit = 0.
Proof.
  unfold read, table_cell, initial_table.
  destruct (replicate 6 (replicate 2 0) !! Z.to_nat row) as [r|] eqn:Hr; [|done].
  apply lookup_replicate in Hr as [-> _]. simpl.
  by destruct (Z.to_nat bit) as [|[|[|]]].
Qed.

Lemma shaped_distances totalRuns outcome ds s :
  shaped_stats s → Forall (λ d', (3 ≤ d' ≤ 8)%Z) ds →
  (∀ d' run, two_values (outcome d' run)) →
  shaped_stats (foldl (stats_distance totalRuns outcome) s ds).
Proof.
  intros Hs Hds Hout. revert s Hs.
  induction Hds as [|d ds Hd _ IH]; intros s Hs; [done|].
  cbn [foldl]. apply IH.
  by apply (record_distance_pure totalRuns outcome s d).
Qed.

Lemma distances_in_range maxSize :
  (maxSize ≤ 8)%Z →
  NoDup (range3 3 (maxSize + 1) 1)
  ∧ Forall (λ d', (3 ≤ d' ≤ 8)%Z) (range3 3 (maxSize + 1) 1)
  ∧ ∀ d, (3 ≤ d ≤ maxSize)%Z → d ∈ range3 3 (maxSize + 1) 1.
Proof.
  intros Hmax. rewrite range3_step_1. split; [apply NoDup_seqZ|]. split.
  - apply list.Forall_forall. intros d Hd%elem_of_seqZ. lia.
  - intros d Hd. apply elem_of_seqZ. lia.
Qed.

(** X17.  With [maxSize] at most 8, and [GetData] returning its three
    lists of two values at each call, the loop of section 4 raises no
    [IndexError], and afterwards row [d-3] of the six tables holds, for
    each encoded bit and each view, the mean and the variance of the
    values that [GetData] returned in the runs of distance [d] alone:
    the runs of one distance leave the rows of the others untouched. *)
Theorem record_all_aggregates maxSize totalRuns outcome :
  (maxSize ≤ 8)%Z →
  (∀ d run, two_values (outcome d run)) →
  ∃ s, record_all maxSize totalRuns outcome = Ok s
       ∧ ∀ d bit, (3 ≤ d ≤ maxSize)%Z → (0 ≤ bit < 2)%Z →
           let result view :=
             aggregate totalRuns (run_values view outcome totalRuns d bit) in
           table_cell (errorFullMean s) (d - 3) bit
             = Some (Mean (result errorFull))
           ∧ table_cell (errorFullVar s) (d - 3) bit
             = Some (Var (result errorFull))
           ∧ table_cell (errorCodeMean s) (d - 3) bit
             = Some (Mean (result errorCode))
           ∧ table_cell (errorCodeVar s) (d - 3) bit
             = Some (Var (result errorCode))
           ∧ table_cell (errorSingleMean s) (d - 3) bit
             = Some (Mean (result errorSingle))
           ∧ table_cell (errorSingleVar s) (d - 3) bit
             = Some (Var (result errorSingle)).
Proof.
  intros Hmax Hout.
  destruct (distances_in_range maxSize Hmax) as (Hnodup & Hds & Hin).
  exists (foldl (stats_distance totalRuns outcome) initial_stats
            (range3 3 (maxSize + 1) 1)).
  pose proof (shaped_distances totalRuns outcome _ _ shaped_initial_stats
                Hds Hout) as (S1 & S2 & S3 & S4 & S5 & S6).
  split.
  - unfold record_all.
    by apply (cell_at_distances errorFullMean errorFullVar errorFull
                (λ s H, proj1 H) (λ s H, proj1 (proj2 H))
                (λ _ _ _ _ _, eq_refl) (λ _ _ _ _ _, eq_refl)
                (λ _ _ _, eq_refl) (λ _ _ _, eq_refl)
                totalRuns outcome _ _ 3 0 shaped_initial_stats Hnodup Hds Hout).
  - intros d bit Hd Hbit result.
    assert (3 ≤ d ≤ 8)%Z as Hd8 by lia.
    rewrite !table_cell_read by (done || lia).
    assert (∀ getM getV view,
              cell_at getM getV
                (foldl (stats_distance totalRuns outcome) initial_stats
                   (range3 3 (maxSize + 1) 1)) (d - 3) bit
              = finish (foldl (add_run totalRuns)
                          (cell_at getM getV initial_stats (d - 3) bit)
                          (run_values view outcome totalRuns d bit)) →
              cell_at getM getV initial_stats (d - 3) bit = Cell 0 0 →
              read (getM (foldl (stats_distance totalRuns outcome) initial_stats
                            (range3 3 (maxSize + 1) 1))) (d - 3) bit
              = Mean (result view)
              ∧ read (getV (foldl (stats_distance totalRuns outcome)
                              initial_stats (range3 3 (maxSize + 1) 1)))
                  (d - 3) bit
                = Var (result view)) as Hcells.
    { intros getM getV view Hcell Hzero. subst result. unfold aggregate.
      rewrite <-Hzero, <-Hcell. by unfold cell_at. }
    assert (∀ getM getV,
              (getM initial_stats = initial_table) →
              (getV initial_stats = initial_table) →
              cell_at getM getV initial_stats (d - 3) bit = Cell 0 0) as Hzero.
    { intros getM getV HM HV. unfold cell_at.
      by rewrite HM, HV, !read_initial_table. }
    destruct (Hcells errorFullMean errorFullVar errorFull) as [-> ->].
    { destruct (cell_at_distances errorFullMean errorFullVar errorFull
                  (λ s H, proj1 H) (λ s H, proj1 (proj2 H))
                  (λ _ _ _ _ _, eq_refl) (λ _ _ _ _ _, eq_refl)
                  (λ _ _ _, eq_refl) (λ _ _ _, eq_refl)
                  totalRuns outcome _ _ d bit shaped_initial_stats Hnodup Hds
                  Hout Hd8 Hbit) as [_ ->].
      by rewrite decide_True by (by apply Hin). }
    { by apply Hzero. }
    destruct (Hcells errorCodeMean errorCodeVar errorCode) as [-> ->].
    { destruct (cell_at_distances errorCodeMean errorCodeVar errorCode
                  (λ s H, proj1 (proj2 (proj2 H)))
                  (λ s H, proj1 (proj2 (proj2 (proj2 H))))
                  (λ _ _ _ _ _, eq_refl) (λ _ _ _ _ _, eq_refl)
                  (λ _ _ _, eq_refl) (λ _ _ _, eq_refl)
                  totalRuns outcome _ _ d bit shaped_initial_stats Hnodup Hds
                  Hout Hd8 Hbit) as [_ ->].
      by rewrite decide_True by (by apply Hin). }
    { by apply Hzero. }
    destruct (Hcells errorSingleMean errorSingleVar errorSingle) as [-> ->].
    { destruct (cell_at_distances errorSingleMean errorSingleVar errorSingle
                  (λ s H, proj1 (proj2 (proj2 (proj2 (proj2 H)))))
                  (λ s H, proj2 (proj2 (proj2 (proj2 (proj2 H)))))
                  (λ _ _ _ _ _, eq_refl) (λ _ _ _ _ _, eq_refl)
                  (λ _ _ _, eq_refl) (λ _ _ _, eq_refl)
                  totalRuns outcome _ _ d bit shaped_initial_stats Hnodup Hds
                  Hout Hd8 Hbit) as [_ ->].
      by rewrite decide_True by (by apply Hin). }
    { by apply Hzero. }
    done.
Qed.

Lemma record_distance_nine totalRuns outcome s :
  shaped_stats s → record_distance totalRuns outcome s 9 = Raise IndexError.
Proof.
  intros (H1 & [Hlen _] & _). destruct H1 as [Hlen1 _].
  unfold record_distance.
  destruct (range3 0 totalRuns 1) as [|run runs].
  - cbn [for_each bind]. unfold finish_bit at 1. cbv zeta.
    unfold table_augment at 1.
    by rewrite list_index_out_of_range by lia.
  - cbn [for_each]. unfold record_bit at 1. cbv zeta.
    unfold table_augment at 1.
    by rewrite list_index_out_of_range by lia.
Qed.

(** X18.  The tables have six rows, for the distances 3 to 8: with
    [maxSize] above 8, and [GetData] returning its three lists of two
    values at each call (on the device it builds a circuit for every
    distance), the loop reaches distance 9 and raises [IndexError] at the
    first update of row 6. *)
Theorem record_all_six_rows maxSize totalRuns outcome :
  (8 < maxSize)%Z →
  (∀ d run, two_values (outcome d run)) →
  record_all maxSize totalRuns outcome = Raise IndexError.
Proof.
  intros Hmax Hout. unfold record_all.
  rewrite range3_step_1.
  replace (maxSize + 1 - 3)%Z with (6 + (maxSize - 8))%Z by lia.
  rewrite seqZ_app by lia.
  rewrite (seqZ_cons (3 + 6)) by lia.
  rewrite for_each_app.
  destruct (distances_in_range 8) as (Hnodup & Hds & _); [lia|].
  rewrite range3_step_1 in Hnodup, Hds.
  change (8 + 1 - 3)%Z with 6%Z in Hnodup, Hds.
  destruct (cell_at_distances errorFullMean errorFullVar errorFull
              (λ s H, proj1 H) (λ s H, proj1 (proj2 H))
              (λ _ _ _ _ _, eq_refl) (λ _ _ _ _ _, eq_refl)
              (λ _ _ _, eq_refl) (λ _ _ _, eq_refl)
              totalRuns outcome _ _ 3 0 shaped_initial_stats Hnodup Hds Hout)
    as [-> _]; [lia..|].
  cbn [bind for_each].
  rewrite record_distance_nine; [done|].
  apply shaped_distances; [apply shaped_initial_stats|done..].
Qed.

End AllDistances.

Lemma record_all_aggregates_witness :
  ∃ s, record_all 8 10 (λ _ _, Errors [Q2Qc 0.5; Q2Qc 0.25] [0; 1] [1; 0]) = Ok s
       ∧ table_cell (errorFullMean s) (5 - 3) 1
         = Some (Mean (aggregate 10
                         (run_values errorFull
                            (λ _ _, Errors [Q2Qc 0.5; Q2Qc 0.25] [0; 1] [1; 0])
                            10 5 1))).
Proof.
  destruct (record_all_aggregates 8 10
              (λ _ _, Errors [Q2Qc 0.5; Q2Qc 0.25] [0; 1] [1; 0]))
    as (s & Hs & Hcells); [lia|by intros|].
  exists s. split; [done|].
  by destruct (Hcells 5%Z 1%Z) as (? & _); [lia..|].
Defined.

Lemma record_all_six_rows_witness :
  record_all 9 10 (λ _ _, Errors [Q2Qc 0.5; Q2Qc 0.25] [0; 1] [1; 0])
  = Raise IndexError.
Proof.
  apply record_all_six_rows; [lia|by intros].
Defined.
